(** * werkzeug.asgi: the ASGI adapter of werkzeug, embedded in Rocq

    The development follows [src/werkzeug/asgi.py]:
    - [SynchronizedInputStream] (a blocking [read] over an asynchronous
      receiver) is a state record threaded through [_read], [read];
    - [asgi_scope_to_environ] builds a [gmap] from a scope record;
    - [ASGIResponse.get_app_iter] and [ASGIResponse.__call__] produce the list
      of frames handed to the sender.

    Python values are modelled by the types the ASGI interface gives them:
    [bytes] is a list of bytes, [str] a list of code points, an absent
    dictionary key an [option].  Exceptions are an [outcome]. *)

From stdpp Require Import base option list gmap strings fin_maps.
From Stdlib Require Import ZArith Lia Strings.Byte.

Local Open Scope Z_scope.

(** ** Python values *)

Definition bytes := list byte.

(** A [str] is a sequence of Unicode code points. *)
Definition pystr := list N.

(** The exceptions the module can raise. *)
Inductive exn := TypeError | AttributeError | NameError | KeyError | UnicodeError.

(** Result of running a piece of the program: a value, an exception, a
    receiver that never delivers ([Blocked]: the awaited future never
    completes), or a loop cut by the fuel of the model. *)
Inductive outcome (A : Type) :=
| Ok (a : A)
| Raise (e : exn)
| Blocked
| OutOfFuel.
Arguments Ok {A} a.
Arguments Raise {A} e.
Arguments Blocked {A}.
Arguments OutOfFuel {A}.

(** Sequencing: a failure of the first part is the failure of the whole. *)
#[global] Instance outcome_ret : MRet outcome := λ A, @Ok A.
#[global] Instance outcome_bind : MBind outcome := λ A B f o,
  match o with
  | Ok a => f a
  | Raise e => Raise e
  | Blocked => Blocked
  | OutOfFuel => OutOfFuel
  end.
#[global] Instance outcome_fmap : FMap outcome := λ A B f o,
  match o with
  | Ok a => Ok (f a)
  | Raise e => Raise e
  | Blocked => Blocked
  | OutOfFuel => OutOfFuel
  end.

Definition len {A} (l : list A) : Z := Z.of_nat (length l).

(** [seq[lo:hi]] for integer bounds, as Python computes it: a negative bound
    counts from the end, and both bounds are clamped to [0, len]. *)
Definition clamp_index (size i : Z) : Z :=
  if i <? 0 then Z.max 0 (i + size) else Z.min i size.

Definition slice {A} (l : list A) (lo hi : Z) : list A :=
  let lo' := clamp_index (len l) lo in
  let hi' := clamp_index (len l) hi in
  take (Z.to_nat (hi' - lo')) (drop (Z.to_nat lo') l).

(** ** SynchronizedInputStream *)

(** A message of the receiver: [event['type']], and the optional keys
    [body] and [more_body]. *)
Record event := Event {
  ev_type : string;
  ev_body : option bytes;
  ev_more_body : option bool
}.

(** What the stream did, in order: a message taken from the receiver, or the
    value a call of [_read] returned.  The trace is ghost state: no
    operation reads it. *)
Inductive io :=
| Recv (e : event)
| Yield (v : option bytes).

(** The fields of the object; [receiver] holds the messages the receiver
    will deliver, in order ([self.loop] only schedules and is left out).
    [buffer] is [None] when the field holds Python's [None]. *)
Record stream := Stream {
  bufp : Z;
  buffer : option bytes;
  exhausted : bool;
  ended : bool;
  receiver : list event;
  trace : list io
}.

(** [SynchronizedInputStream.__init__] *)
Definition init (receiver : list event) : stream :=
  Stream 0 (Some []) false false receiver [].

Definition set_bufp (p : Z) (s : stream) : stream :=
  Stream p (buffer s) (exhausted s) (ended s) (receiver s) (trace s).
Definition set_buffer (b : option bytes) (s : stream) : stream :=
  Stream (bufp s) b (exhausted s) (ended s) (receiver s) (trace s).
Definition set_exhausted (b : bool) (s : stream) : stream :=
  Stream (bufp s) (buffer s) b (ended s) (receiver s) (trace s).
Definition set_ended (b : bool) (s : stream) : stream :=
  Stream (bufp s) (buffer s) (exhausted s) b (receiver s) (trace s).
Definition set_receiver (r : list event) (s : stream) : stream :=
  Stream (bufp s) (buffer s) (exhausted s) (ended s) r (trace s).
Definition record (a : io) (s : stream) : stream :=
  Stream (bufp s) (buffer s) (exhausted s) (ended s) (receiver s) (trace s ++ [a]).

(** [return v] of [_read]: the value, noted in the trace. *)
Definition yield (v : option bytes) (s : stream) : outcome (option bytes) * stream :=
  (Ok v, record (Yield v) s).

(** [SynchronizedInputStream._read].  The result is [None] when the function
    falls off its end, which is what Python returns for a message whose type
    is neither of the two tested. *)
Definition _read (s : stream) : outcome (option bytes) * stream :=
  if ended s then yield (Some []) s
  else
    match receiver s with
    | [] => (Blocked, s)
    | event :: rest =>
        let s := record (Recv event) (set_receiver rest s) in
        if String.eqb (ev_type event) "http.disconnect" then
          yield (Some []) (set_ended true s)
        else if String.eqb (ev_type event) "http.request" then
          yield (Some (default [] (ev_body event)))
                (set_ended (negb (default false (ev_more_body event))) s)
        else yield None s
    end.

(** The [while True] loop of lines 47-56 of [read].  [len(self.buffer)]
    raises [TypeError] when [_read] returned [None]; the assignment to
    [self.buffer] has happened by then. *)
Fixpoint recv_loop (fuel : nat) (n : Z) (rv : bytes) (s : stream)
  : outcome bytes * stream :=
  match fuel with
  | O => (OutOfFuel, s)
  | S fuel' =>
      match _read s with
      | (Ok v, s) =>
          let s := set_buffer v s in
          match v with
          | None => (Raise TypeError, s)
          | Some buf =>
              if len buf =? 0 then (Ok rv, set_exhausted true s)
              else
                let s := set_bufp (n - len rv) s in
                let rv' := rv ++ slice buf 0 (n - len rv) in
                if len rv' =? n then (Ok rv', s)
                else recv_loop fuel' n rv' s
          end
      | (Raise e, s) => (Raise e, s)
      | (Blocked, s) => (Blocked, s)
      | (OutOfFuel, s) => (OutOfFuel, s)
      end
  end.

(** Lines 41-57 of [read]: the call [read(n)] for [n] other than [-1].  Each
    turn of the loop but the last takes a message from the receiver, so one
    more turn than there are messages is all the loop can make. *)
Definition read_bounded (n : Z) (s : stream) : outcome bytes * stream :=
  if (n =? 0) || exhausted s then (Ok [], s)
  else
    match buffer s with
    | None => (Raise TypeError, s)
    | Some buf =>
        let rv := slice buf (bufp s) (bufp s + n) in
        if len rv =? n then (Ok rv, set_bufp (bufp s + n) s)
        else recv_loop (S (length (receiver s))) n rv s
    end.

(** Lines 34-40 of [read]: the loop of [read(-1)] over [self.read(8192)]. *)
Fixpoint readall_loop (fuel : nat) (rv : bytes) (s : stream)
  : outcome bytes * stream :=
  match fuel with
  | O => (OutOfFuel, s)
  | S fuel' =>
      match read_bounded 8192 s with
      | (Ok v, s) =>
          if len v =? 0 then (Ok rv, s)
          else readall_loop fuel' (rv ++ v) s
      | (o, s) => (o, s)
      end
  end.

(** [SynchronizedInputStream.read]; a call without argument is [read (-1)]. *)
Definition read (fuel : nat) (n : Z) (s : stream) : outcome bytes * stream :=
  if n =? -1 then readall_loop fuel [] s else read_bounded n s.

(** A sequence of calls of [read] on one stream, with their results. *)
Fixpoint reads (fuel : nat) (ns : list Z) (s : stream)
  : list (outcome bytes) * stream :=
  match ns with
  | [] => ([], s)
  | n :: ns' =>
      let '(o, s1) := read fuel n s in
      let '(os, s2) := reads fuel ns' s1 in
      (o :: os, s2)
  end.

(** Literals. *)
Definition lit (s : string) : bytes := String.list_byte_of_string s.

Definition data (body : string) (more : bool) : event :=
  Event "http.request" (Some (lit body)) (if more then Some true else None).

(** ** asgi_scope_to_environ *)

Definition str (s : string) : pystr := Byte.to_N <$> String.list_byte_of_string s.

(** [bytes.decode('iso-8859-1')]: every byte is the code point of its value. *)
Definition decode (bs : bytes) : pystr := Byte.to_N <$> bs.

(** [str.replace('-', '_')] *)
Definition replace_dash (s : pystr) : pystr :=
  (fun c => if (c =? 45)%N then 95%N else c) <$> s.

(** [str.upper()] on one code point below 256, the only ones a decoded
    header name holds: the ASCII and Latin-1 small letters move down by 32,
    the micro sign becomes capital mu, sharp s becomes SS and y with
    diaeresis leaves Latin-1. *)
Definition upper_char (c : N) : list N :=
  (if (97 <=? c)%N && (c <=? 122)%N then [c - 32]
   else if (c =? 181)%N then [924]
   else if (c =? 223)%N then [83; 83]
   else if (224 <=? c)%N && (c <=? 254)%N && negb (c =? 247)%N then [c - 32]
   else if (c =? 255)%N then [376]
   else [c])%N.

Definition upper (s : pystr) : pystr := s ≫= upper_char.

(** The values the environ holds. *)
Inductive value :=
| VNone
| VStr (s : pystr)
| VInt (z : Z).

#[global] Instance value_eq_dec : EqDecision value.
Proof. solve_decision. Defined.

(** The two-element list of [scope['server']] and [scope['client']]. *)
Definition endpoint := (value * value)%type.

(** The scope dictionary.  The keys read with [scope[...]] are fields, the
    keys read with [scope.get] are options, [None] for an absent key.  For
    [server] and [client] a present key holds [None] (an endpoint the server
    does not know) or a two-element list. *)
Record scope := Scope {
  method : pystr;
  path : pystr;
  root_path : option pystr;
  query_string : option bytes;
  server : option (option endpoint);
  client : option (option endpoint);
  scheme : option pystr;
  headers : option (list (bytes * bytes))
}.

Definition wsgi_key_of (k : bytes) : pystr :=
  let wsgi_key := upper (replace_dash (decode k)) in
  if bool_decide (wsgi_key ∈ [str "CONTENT_TYPE"; str "CONTENT_LENGTH"])
  then wsgi_key
  else str "HTTP_" ++ wsgi_key.

(** The loop over the headers, lines 73-80.  [+=] on an entry that is not a
    [str] raises [TypeError]. *)
Fixpoint add_headers (hs : list (bytes * bytes)) (environ : gmap pystr value)
  : outcome (gmap pystr value) :=
  match hs with
  | [] => Ok environ
  | (k, v) :: hs' =>
      let wsgi_key := wsgi_key_of k in
      match environ !! wsgi_key with
      | None => add_headers hs' (<[wsgi_key := VStr (decode v)]> environ)
      | Some (VStr old) =>
          add_headers hs' (<[wsgi_key := VStr (old ++ str "; " ++ decode v)]> environ)
      | Some _ => Raise TypeError
      end
  end.

(** [scope.get(key, [None, None])], subscripted: the default list for an
    absent key, the list of a present one, and [TypeError] for a key that
    holds [None], which has no subscript. *)
Definition get_endpoint (field : option (option endpoint)) : outcome endpoint :=
  match field with
  | None => Ok (VNone, VNone)
  | Some None => Raise TypeError
  | Some (Some ep) => Ok ep
  end.

(** The dictionary literal of lines 61-72, given the decoded query string
    and the two endpoint lists. *)
Definition base_environ (sc : scope) (query : pystr) (server client : endpoint)
  : gmap pystr value :=
  <[str "wsgi.url_scheme" := VStr (default (str "http") (scheme sc))]>
  (<[str "REMOTE_PORT" := client.2]>
  (<[str "REMOTE_ADDR" := client.1]>
  (<[str "REMOTE_HOST" := client.1]>
  (<[str "SERVER_PORT" := server.2]>
  (<[str "SERVER_NAME" := server.1]>
  (<[str "QUERY_STRING" := VStr query]>
  (<[str "PATH_INFO" := VStr (default [] (root_path sc) ++ path sc)]>
  (<[str "SCRIPT_NAME" := VStr (default [] (root_path sc))]>
  (<[str "REQUEST_METHOD" := VStr (method sc)]> ∅))))))))).

(** [asgi_scope_to_environ].  The values of the literal are evaluated in
    order.  [scope.get('query_string')] has no default: for an absent key it
    is [None], and [None.decode] raises [AttributeError].  The subscripts of
    the server list come next, then those of the client list. *)
Definition asgi_scope_to_environ (sc : scope) : outcome (gmap pystr value) :=
  match query_string sc with
  | None => Raise AttributeError
  | Some q =>
      server ← get_endpoint (server sc);
      client ← get_endpoint (client sc);
      add_headers (default [] (headers sc)) (base_environ sc (decode q) server client)
  end.

(** ** ASGIResponse *)

(** A chunk of a body: text or bytes. *)
Inductive item :=
| Text (s : pystr)
| Bytes (b : bytes).

(** The object held in [self.response], by what the module asks of it: the
    chunks it produces, whether it is an [AsyncIterable] (it is then read
    with [async for], otherwise with [for]), and whether [len] accepts it,
    giving the number of chunks.  A list is [Source l false true], a
    generator [Source l false false], an async generator
    [Source l true false]. *)
Record source := Source {
  items : list item;
  is_async : bool;
  has_len : bool
}.

Record ASGIResponse := Response {
  response : source;
  status_code : Z;
  direct_passthrough : bool;
  charset : pystr
}.

(** An async generator, by the results of its successive steps: a chunk,
    or the exception that ends it. *)
Definition agen := list (outcome item).

(** What [get_app_iter] returns: the async generator of [aiter_encoded], or
    the response object itself. *)
Inductive app_iter :=
| Generator (g : agen)
| Raw (src : source).

(** A frame handed to [sender]: the start frame, or a body frame with its
    [body] key (absent in the last frame of line 164) and whether the
    [more_body] key was set. *)
Inductive frame :=
| StartFrame (status : Z) (hdrs : list (pystr * pystr))
| BodyFrame (body : option item) (more_body : bool).

(** The empty tuple [()]. *)
Definition empty_tuple : source := Source [] false true.

(** [_warn_if_string] is called in [get_app_iter] and bound nowhere in the
    module (line 6 imports [Request] and [Response] only): evaluating the name
    raises [NameError]. *)
Definition _warn_if_string (resp : source) : outcome unit := Raise NameError.

Section Response.

(** [str.encode(charset)], of Python's codecs: bytes, or an exception. *)
Variable encode : pystr → pystr → outcome bytes.

(** [Response.get_wsgi_headers(environ).to_wsgi_list()] of
    [werkzeug.wrappers], which is not part of this module. *)
Variable get_wsgi_headers : ASGIResponse → gmap pystr value → list (pystr * pystr).

(** Python's [__debug__]: true unless the interpreter runs with [-O]. *)
Variable debug : bool.

(** [ASGIResponse._asyncify]: an async generator over a plain iterable. *)
Definition _asyncify (iterable : source) : source :=
  Source (items iterable) true false.

(** [ASGIResponse.aiter_encoded] *)
Definition aiter_encoded (self : ASGIResponse) (iterable : source) : agen :=
  (λ item, match item with
           | Text t => Bytes <$> encode (charset self) t
           | Bytes _ => Ok item
           end) <$> items iterable.

(** [ASGIResponse.get_app_iter]; [wrap] is its last five lines, which the
    first and the third branch reach. *)
Definition get_app_iter (self : ASGIResponse) (environ : gmap pystr value)
  : outcome app_iter :=
  let status := status_code self in
  let wrap (iterable : source) :=
    let coro := if negb (is_async iterable) then _asyncify iterable
                else iterable in
    Ok (Generator (aiter_encoded self coro)) in
  match environ !! str "REQUEST_METHOD" with
  | None => Raise KeyError
  | Some request_method =>
      if bool_decide (request_method = VStr (str "HEAD"))
         || (100 <=? status) && (status <? 200)
         || bool_decide (status ∈ [204; 304])
      then wrap empty_tuple
      else if direct_passthrough self then
        (if debug then _warn_if_string (response self) else Ok tt) ≫= λ _,
        Ok (Raw (response self))
      else wrap (response self)
  end.

(** Modelled from the spec: [get_wsgi_response] is inherited from
    [werkzeug.wrappers.Response], which is not in the module; it gives the
    effective body of [get_app_iter], the status and the header list. *)
Definition get_wsgi_response (self : ASGIResponse) (environ : gmap pystr value)
  : outcome (app_iter * Z * list (pystr * pystr)) :=
  app_iter ← get_app_iter self environ;
  Ok (app_iter, status_code self, get_wsgi_headers self environ).

(** [len(app_iter)] under [try]: [None] when it raises.  An async
    generator has no length. *)
Definition try_len (it : app_iter) : option Z :=
  match it with
  | Generator _ => None
  | Raw src => if has_len src then Some (len (items src)) else None
  end.

(** What [async for] draws from [app_iter]; an object that is not an
    [AsyncIterable] raises [TypeError] at once. *)
Definition aiter (it : app_iter) : agen :=
  match it with
  | Generator g => g
  | Raw src => if is_async src then Ok <$> items src else [Raise TypeError]
  end.

(** The loop of lines 153-162 over the steps of the iterator: the frames
    sent, and how the loop ended. *)
Fixpoint send_body (l : option Z) (i : Z) (steps : agen)
  : list frame * outcome unit :=
  match steps with
  | [] => ([], Ok tt)
  | Ok item :: steps' =>
      let more_body :=
        match l with None => true | Some l => i <? l end in
      let '(sent, o) := send_body l (i + 1) steps' in
      (BodyFrame (Some item) more_body :: sent, o)
  | Raise e :: _ => ([], Raise e)
  | Blocked :: _ => ([], Blocked)
  | OutOfFuel :: _ => ([], OutOfFuel)
  end.

(** The coroutine [response] of [__call__], as the frames it hands to
    [sender] in order and how it ended. *)
Definition response_coro (self : ASGIResponse) (app_iter : app_iter)
    (hdrs : list (pystr * pystr)) : list frame * outcome unit :=
  let start := StartFrame (status_code self) hdrs in
  let l := try_len app_iter in
  let '(sent, o) := send_body l 0 (aiter app_iter) in
  match o with
  | Ok _ =>
      (start :: sent ++ (if l is None then [BodyFrame None false] else []), Ok tt)
  | _ => (start :: sent, o)
  end.

(** [ASGIResponse.__call__], applied to a scope and run once. *)
Definition __call__ (self : ASGIResponse) (sc : scope)
  : outcome (list frame * outcome unit) :=
  environ ← asgi_scope_to_environ sc;
  '(app_iter, status, hdrs) ← get_wsgi_response self environ;
  Ok (response_coro self app_iter hdrs).

End Response.

(** * Vocabulary of the properties

    What the theorems below say about the program is phrased with the
    definitions of this part; none of them is used by the program. *)

(** What a received message does to the stream: whether it sets [ended], and
    the value [_read] returns for it. *)
Definition closes (e : event) : bool :=
  String.eqb (ev_type e) "http.disconnect"
  || String.eqb (ev_type e) "http.request" && negb (default false (ev_more_body e)).

Definition yield_of (e : event) : option bytes :=
  if String.eqb (ev_type e) "http.disconnect" then Some []
  else if String.eqb (ev_type e) "http.request" then Some (default [] (ev_body e))
  else None.

(** The three ways a call of [_read] can go. *)
Inductive read_step (s : stream) : outcome (option bytes) → stream → Prop :=
| step_ended :
    ended s = true →
    read_step s (Ok (Some [])) (record (Yield (Some [])) s)
| step_blocked :
    ended s = false → receiver s = [] →
    read_step s Blocked s
| step_recv e rest :
    ended s = false → receiver s = e :: rest →
    read_step s (Ok (yield_of e))
      (Stream (bufp s) (buffer s) (exhausted s) (closes e) rest
              (trace s ++ [Recv e; Yield (yield_of e)])).

(** No message is taken after one that set [ended]. *)
Definition quiet_after_close (tr : list io) : Prop :=
  ∀ pre e post, tr = pre ++ Recv e :: post → closes e = true →
                ∀ e', Recv e' ∉ post.

(** Nothing follows an empty result of [_read]. *)
Definition empty_yield_last (tr : list io) : Prop :=
  ∀ pre post, tr = pre ++ Yield (Some []) :: post → post = [].

(** How a trace and the two flags stand to each other between two turns of
    a loop of [read]. *)
Record flags_inv (tr : list io) (en ex : bool) : Prop := FlagsInv {
  inv_quiet : quiet_after_close tr;
  inv_last : empty_yield_last tr;
  inv_ended : en = true ↔ ∃ e, Recv e ∈ tr ∧ closes e = true;
  inv_exhausted : ex = true ↔ Yield (Some []) ∈ tr
}.

Definition stream_inv (s : stream) : Prop :=
  flags_inv (trace s) (ended s) (exhausted s).

(** Arithmetic on lengths. *)
Ltac len_lia := unfold len in *; rewrite ?length_take, ?length_drop in *; lia.

(** [event.get('body', b'')] *)
Definition body_of (e : event) : bytes := default [] (ev_body e).

(** The messages of one request body: data messages, each but the last
    marked [more_body] and carrying at least one byte, the last not
    marked. *)
Fixpoint body_stream (evs : list event) : Prop :=
  match evs with
  | [] => False
  | e :: evs' =>
      ev_type e = "http.request" ∧
      match evs' with
      | [] => default false (ev_more_body e) = false
      | _ :: _ =>
          default false (ev_more_body e) = true ∧ body_of e ≠ [] ∧
          body_stream evs'
      end
  end.

(** The bytes that are still to come from the receiver. *)
Definition incoming (s : stream) : bytes :=
  if ended s then [] else receiver s ≫= body_of.

(** The bytes a stream has not returned yet. *)
Definition unread (s : stream) : bytes :=
  if exhausted s then []
  else drop (Z.to_nat (bufp s)) (default [] (buffer s)) ++ incoming s.

(** A stream in the middle of such a body: exhausted, or with the cursor
    inside the buffer and, unless [ended], the rest of the body to come. *)
Definition good (s : stream) : Prop :=
  exhausted s = true ∨
  ∃ buf, buffer s = Some buf ∧ 0 ≤ bufp s ≤ len buf ∧
         (ended s = false → body_stream (receiver s)).

(** Neither endpoint key holds [None]: its subscripts are defined. *)
Definition endpoints_ok (sc : scope) : Prop :=
  server sc ≠ Some None ∧ client sc ≠ Some None.

(** The list an endpoint key stands for, when its subscripts are defined. *)
Definition endpoint_or_null (field : option (option endpoint)) : endpoint :=
  match field with
  | Some (Some ep) => ep
  | _ => (VNone, VNone)
  end.

(** The dictionary literal of a scope whose endpoint subscripts are
    defined. *)
Definition scope_environ (sc : scope) (query : pystr) : gmap pystr value :=
  base_environ sc query (endpoint_or_null (server sc)) (endpoint_or_null (client sc)).

(** The keys of the dictionary literal of lines 61-72. *)
Definition base_keys : list pystr :=
  str <$> ["REQUEST_METHOD"; "SCRIPT_NAME"; "PATH_INFO"; "QUERY_STRING";
           "SERVER_NAME"; "SERVER_PORT"; "REMOTE_HOST"; "REMOTE_ADDR";
           "REMOTE_PORT"; "wsgi.url_scheme"].

(** The values of the headers whose name translates to [key], in the order
    of the header list. *)
Definition values_for (key : pystr) (hs : list (bytes * bytes)) : list pystr :=
  (λ kv, decode kv.2) <$> filter (λ kv, wsgi_key_of kv.1 = key) hs.

(** [sep.join(vs)] *)
Definition join_with (sep : pystr) (vs : list pystr) : pystr :=
  match vs with
  | [] => []
  | v :: vs' => v ++ (vs' ≫= λ x, sep ++ x)
  end.

(** What one header does to the entry of its key. *)
Definition extend (old : option value) (v : pystr) : option value :=
  match old with
  | None => Some (VStr v)
  | Some (VStr o) => Some (VStr (o ++ str "; " ++ v))
  | Some x => Some x
  end.

(** The scope of a GET request with a query string and nothing else. *)
Definition get_scope : scope :=
  Scope (str "GET") (str "/") None (Some []) None None None None.

(** A header name with its ASCII small letters made capital, and with its
    dashes made underscores: two ways to write a name that the translation
    does not tell apart. *)
Definition ascii_upper (b : byte) : byte :=
  if (97 <=? Byte.to_N b)%N && (Byte.to_N b <=? 122)%N
  then default b (Byte.of_N (Byte.to_N b - 32))
  else b.

Definition dash_to_underscore (b : byte) : byte :=
  if (Byte.to_N b =? 45)%N then "_"%byte else b.

(** The frames of a list of chunks, each marked [more_body]. *)
Definition tagged (its : list item) : list frame :=
  (λ it, BodyFrame (Some it) true) <$> its.

(** What [aiter_encoded] makes of a chunk that it can encode. *)
Definition encodes_to (encode : pystr → pystr → outcome bytes) (cs : pystr)
    (it : item) (b : bytes) : Prop :=
  match it with
  | Text t => encode cs t = Ok b
  | Bytes b' => b' = b
  end.

(** The requests and statuses that have a body: all but HEAD, the
    informational statuses, 204 and 304. *)
Definition has_body (request_method : pystr) (status : Z) : Prop :=
  request_method ≠ str "HEAD" ∧ ¬ (100 ≤ status < 200) ∧
  status ≠ 204 ∧ status ≠ 304.

(** * The program on small inputs *)

Example ex_read_all :
  fst (read 5 (-1) (init [data "ab" true; data "cde" false])) = Ok (lit "abcde").
Proof. vm_compute. reflexivity. Qed.

Example ex_read_2 :
  fst (reads 5 [2; 2; 2; 2] (init [data "a" true; data "bcd" true; data "e" false]))
  = [Ok (lit "ab"); Ok (lit "cd"); Ok (lit "e"); Ok []].
Proof. vm_compute. reflexivity. Qed.

Example ex_read_neg :
  fst (read 5 (-2) (init [data "abc" false])) = Ok (lit "a").
Proof. vm_compute. reflexivity. Qed.

Example ex_disconnect_first :
  fst (reads 5 [4; -1; 4] (init [Event "http.disconnect" None None; data "ab" false]))
  = [Ok []; Ok []; Ok []].
Proof. vm_compute. reflexivity. Qed.

Example ex_environ :
  (λ m, (m !! str "QUERY_STRING", m !! str "HTTP_X_A")) <$>
  asgi_scope_to_environ
    (Scope (str "GET") (str "/x") None (Some (lit "a=1")) None None None
       (Some [(lit "x-a", lit "1"); (lit "x-a", lit "2")]))
  = Ok (Some (VStr (str "a=1")), Some (VStr (str "1; 2"))).
Proof. vm_compute. reflexivity. Qed.

(** * Properties of the input stream *)

Lemma _read_ended s :
  ended s = true → _read s = (Ok (Some []), record (Yield (Some [])) s).
Proof. intros H. unfold _read. rewrite H. reflexivity. Qed.

Lemma _read_blocked s :
  ended s = false → receiver s = [] → _read s = (Blocked, s).
Proof. intros H1 H2. unfold _read. rewrite H1, H2. reflexivity. Qed.

Lemma _read_recv s e rest :
  ended s = false → receiver s = e :: rest →
  _read s = (Ok (yield_of e),
             Stream (bufp s) (buffer s) (exhausted s) (closes e) rest
                    (trace s ++ [Recv e; Yield (yield_of e)])).
Proof.
  intros H1 H2. unfold _read, yield_of, closes. rewrite H1, H2.
  unfold yield, record, set_ended, set_receiver; simpl.
  rewrite <- !app_assoc; simpl.
  destruct (String.eqb (ev_type e) "http.disconnect") eqn:Hd; simpl.
  - reflexivity.
  - destruct (String.eqb (ev_type e) "http.request"); simpl; [reflexivity|].
    rewrite H1. reflexivity.
Qed.

Lemma _read_step s : read_step s (_read s).1 (_read s).2.
Proof.
  destruct (ended s) eqn:He.
  - rewrite _read_ended by done. by constructor.
  - destruct (receiver s) as [|e rest] eqn:Hr.
    + rewrite _read_blocked by done. by constructor.
    + rewrite (_read_recv s e rest) by done. by constructor.
Qed.

Lemma len_nil_inv {A} (l : list A) : len l = 0 → l = [].
Proof. unfold len. destruct l; simpl; [done | lia]. Qed.

Lemma len_app {A} (l1 l2 : list A) : len (l1 ++ l2) = len l1 + len l2.
Proof. unfold len. rewrite length_app. lia. Qed.

Lemma len_nonneg {A} (l : list A) : 0 ≤ len l.
Proof. unfold len. lia. Qed.

(** A read on an exhausted stream does nothing. *)
Lemma read_bounded_exhausted n s :
  exhausted s = true → read_bounded n s = (Ok [], s).
Proof. intros H. unfold read_bounded. rewrite H, orb_true_r. reflexivity. Qed.

Lemma read_when_exhausted fuel n s :
  exhausted s = true → read (S fuel) n s = (Ok [], s).
Proof.
  intros H. unfold read. destruct (n =? -1).
  - simpl. rewrite read_bounded_exhausted by done. reflexivity.
  - by apply read_bounded_exhausted.
Qed.

Lemma reads_when_exhausted fuel ns s :
  exhausted s = true → reads (S fuel) ns s = ((λ _, Ok []) <$> ns, s).
Proof.
  intros H. induction ns as [|n ns IH]; [reflexivity|].
  cbn [reads]. rewrite read_when_exhausted by done. rewrite IH. reflexivity.
Qed.

(** The loop of a bounded read ends with the bytes asked for, or with the
    stream exhausted. *)
Lemma recv_loop_full_or_exhausted fuel n rv s rv' s' :
  recv_loop fuel n rv s = (Ok rv', s') → len rv' = n ∨ exhausted s' = true.
Proof.
  revert rv s. induction fuel as [|fuel IH]; intros rv s; simpl; [done|].
  destruct (_read s) as [[v| | |] s1]; try done.
  destruct v as [buf|]; [|done].
  destruct (len buf =? 0); [intros [= <- <-]; by right|].
  destruct (len (rv ++ slice buf 0 (n - len rv)) =? n) eqn:E.
  - intros [= <- <-]. left. lia.
  - apply IH.
Qed.

(** C9: on a stream whose [exhausted] flag is set, every call [read(n)], for
    any [n] and repeated any number of times, returns the empty bytes,
    leaves every field of the stream as it was and raises nothing. *)
Theorem read_after_exhaustion (fuel : nat) (ns : list Z) (s : stream) :
  exhausted s = true →
  reads (S fuel) ns s = ((λ _, Ok []) <$> ns, s).
Proof. apply reads_when_exhausted. Qed.

Lemma read_after_exhaustion_witness :
  let s := (read 3 (-1) (init [data "abc" false])).2 in
  exhausted s = true ∧
  reads 1 [5; 0; -1; -7] s = ([Ok []; Ok []; Ok []; Ok []], s).
Proof.
  split; [vm_compute; reflexivity|].
  apply (read_after_exhaustion 0 [5; 0; -1; -7]). vm_compute; reflexivity.
Defined.

(** C10: when [read(n)] with [n > 0] returns fewer than [n] bytes, the
    [exhausted] flag is set on return and every later read, whatever its
    argument, returns the empty bytes and changes nothing. *)
Theorem short_read_is_last (fuel : nat) (n : Z) (s s' : stream) (rv : bytes) :
  0 < n →
  read fuel n s = (Ok rv, s') →
  len rv < n →
  exhausted s' = true ∧
  ∀ fuel' ns, reads (S fuel') ns s' = ((λ _, Ok []) <$> ns, s').
Proof.
  intros Hn Hread Hshort.
  assert (exhausted s' = true) as Hex; [|split; [done|]; intros; by apply reads_when_exhausted].
  unfold read in Hread. destruct (n =? -1) eqn:E; [lia|].
  unfold read_bounded in Hread.
  destruct ((n =? 0) || exhausted s) eqn:E0.
  - injection Hread as <- <-. apply orb_true_iff in E0 as [?|?]; [lia|done].
  - destruct (buffer s) as [buf|]; [|done].
    destruct (len (slice buf (bufp s) (bufp s + n)) =? n) eqn:E1.
    + injection Hread as <- <-. lia.
    + apply recv_loop_full_or_exhausted in Hread as [?|?]; [lia|done].
Qed.

Lemma short_read_is_last_witness :
  let s := init [data "ab" true; data "c" false] in
  let s' := (read 0 5 s).2 in
  0 < 5 ∧ read 0 5 s = (Ok (lit "abc"), s') ∧ len (lit "abc") < 5 ∧
  exhausted s' = true ∧ reads 1 [1; -1; 8] s' = ([Ok []; Ok []; Ok []], s').
Proof.
  intros s s'.
  assert (read 0 5 s = (Ok (lit "abc"), s')) as Hread by (vm_compute; reflexivity).
  assert (len (lit "abc") < 5) as Hshort by (vm_compute; reflexivity).
  split; [lia|]. split; [exact Hread|]. split; [exact Hshort|].
  destruct (short_read_is_last 0 5 s s' (lit "abc") ltac:(lia) Hread Hshort)
    as [H1 H2].
  split; [exact H1 | exact (H2 0%nat [1; -1; 8])].
Defined.

(** ** Messages of an unexpected type *)

Lemma yield_of_unexpected e :
  ev_type e ≠ "http.request" → ev_type e ≠ "http.disconnect" → yield_of e = None.
Proof.
  intros H1 H2. unfold yield_of.
  destruct (String.eqb_spec (ev_type e) "http.disconnect"); [done|].
  destruct (String.eqb_spec (ev_type e) "http.request"); done.
Qed.

(** The trace only grows, and a message for which [_read] returns [None]
    ends the loop with [TypeError]. *)
Lemma recv_loop_unexpected fuel n rv s :
  ∃ tr, trace (recv_loop fuel n rv s).2 = trace s ++ tr ∧
        ∀ e, Recv e ∈ tr → yield_of e = None →
             (recv_loop fuel n rv s).1 = Raise TypeError.
Proof.
  revert rv s. induction fuel as [|fuel IH]; intros rv s; simpl.
  { exists []. rewrite app_nil_r. split; [done|]. intros e He. inversion He. }
  pose proof (_read_step s) as Hstep.
  destruct (_read s) as [o s1]; simpl in Hstep.
  inversion Hstep as [He | He Hr | e rest He Hr]; subst; simpl.
  - exists [Yield (Some [])]. split; [done|].
    intros e H. apply list_elem_of_singleton in H. done.
  - exists []. rewrite app_nil_r. split; [done|]. intros e H. inversion H.
  - destruct (yield_of e) as [buf|] eqn:Hy; simpl.
    + destruct (len buf =? 0); simpl.
      * exists [Recv e; Yield (Some buf)]. split; [done|].
        intros e' H Hn. apply list_elem_of_In in H as [[= <-]|[[=]|[]]]. congruence.
      * match goal with
        | |- context [if ?c then _ else recv_loop fuel n ?rv' ?s'] =>
            destruct c; [|destruct (IH rv' s') as (tr & Htr & Hraise)]
        end; simpl.
        -- exists [Recv e; Yield (Some buf)]. split; [done|].
           intros e' H Hn. apply list_elem_of_In in H as [[= <-]|[[=]|[]]]. congruence.
        -- exists ([Recv e; Yield (Some buf)] ++ tr). split.
           { rewrite Htr. simpl. by rewrite <- app_assoc. }
           intros e' H Hn. apply elem_of_app in H as [H|H]; [apply list_elem_of_In in H as [[= <-]|[[=]|[]]]; congruence|].
           by apply (Hraise e').
    + exists [Recv e; Yield None]. split; [done|]. done.
Qed.

Lemma read_bounded_unexpected n s :
  ∃ tr, trace (read_bounded n s).2 = trace s ++ tr ∧
        ∀ e, Recv e ∈ tr → yield_of e = None →
             (read_bounded n s).1 = Raise TypeError.
Proof.
  unfold read_bounded.
  destruct ((n =? 0) || exhausted s);
    [exists []; rewrite app_nil_r; split; [done|]; intros e H; inversion H|].
  destruct (buffer s) as [buf|];
    [|exists []; rewrite app_nil_r; split; [done|]; intros e H; inversion H].
  destruct (len (slice buf (bufp s) (bufp s + n)) =? n);
    [exists []; rewrite app_nil_r; split; [done|]; intros e H; inversion H|].
  apply recv_loop_unexpected.
Qed.

Lemma readall_loop_unexpected fuel rv s :
  ∃ tr, trace (readall_loop fuel rv s).2 = trace s ++ tr ∧
        ∀ e, Recv e ∈ tr → yield_of e = None →
             (readall_loop fuel rv s).1 = Raise TypeError.
Proof.
  revert rv s. induction fuel as [|fuel IH]; intros rv s; simpl.
  { exists []. rewrite app_nil_r. split; [done|]. intros e He. inversion He. }
  destruct (read_bounded_unexpected 8192 s) as (tr & Htr & Hraise).
  destruct (read_bounded 8192 s) as [o s1]; simpl in *.
  destruct o as [v| | |]; simpl; try (exists tr; split; [done|]; by apply Hraise).
  destruct (len v =? 0); simpl.
  - exists tr. split; [done|]. intros e H Hn. by specialize (Hraise e H Hn).
  - destruct (IH (rv ++ v) s1) as (tr' & Htr' & Hraise').
    exists (tr ++ tr'). split; [rewrite Htr', Htr; by rewrite app_assoc|].
    intros e H Hn. apply elem_of_app in H as [H|H].
    + by specialize (Hraise e H Hn).
    + by apply (Hraise' e).
Qed.

(** C7: when a call of [read] takes from the receiver a message whose type
    is neither [http.request] nor [http.disconnect], that call raises
    ([TypeError], from [len] of the [None] that [_read] returned): it does
    not return bytes. *)
Theorem unexpected_message_raises (fuel : nat) (n : Z) (s : stream)
    (tr : list io) (e : event) :
  trace (read fuel n s).2 = trace s ++ tr →
  Recv e ∈ tr →
  ev_type e ≠ "http.request" →
  ev_type e ≠ "http.disconnect" →
  (read fuel n s).1 = Raise TypeError.
Proof.
  intros Htr He H1 H2.
  assert (∃ tr', trace (read fuel n s).2 = trace s ++ tr' ∧
                 ∀ e, Recv e ∈ tr' → yield_of e = None →
                      (read fuel n s).1 = Raise TypeError) as (tr' & Htr' & Hraise).
  { unfold read. destruct (n =? -1);
      [apply readall_loop_unexpected | apply read_bounded_unexpected]. }
  rewrite Htr in Htr'. apply app_inv_head in Htr' as <-.
  apply (Hraise e He). by apply yield_of_unexpected.
Qed.

Lemma unexpected_message_raises_witness :
  let e := Event "websocket.connect" None None in
  let s := init [data "ab" true; e] in
  trace (read 0 4 s).2
  = trace s ++ [Recv (data "ab" true); Yield (Some (lit "ab")); Recv e; Yield None] ∧
  (read 0 4 s).1 = Raise TypeError.
Proof.
  intros e s. split; [vm_compute; reflexivity|].
  apply (unexpected_message_raises 0 4 s
           [Recv (data "ab" true); Yield (Some (lit "ab")); Recv e; Yield None] e).
  - vm_compute; reflexivity.
  - right. right. by left.
  - discriminate.
  - discriminate.
Defined.

(** ** The flags [ended] and [exhausted], read off the trace *)

Lemma snoc_split {A} (l pre post : list A) (a x : A) :
  l ++ [a] = pre ++ x :: post →
  (post = [] ∧ l = pre ∧ a = x) ∨
  (∃ post', post = post' ++ [a] ∧ l = pre ++ x :: post').
Proof.
  destruct post as [|p post _] using rev_ind; intros H.
  - apply app_inj_tail in H as [-> ->]. by left.
  - change (pre ++ x :: post ++ [p]) with (pre ++ (x :: post) ++ [p]) in H.
    rewrite app_assoc in H. apply app_inj_tail in H as [-> ->].
    right. by exists post.
Qed.

Lemma flags_inv_recv tr e :
  flags_inv tr false false → flags_inv (tr ++ [Recv e]) (closes e) false.
Proof.
  intros [Hq Hl He Hx]. split.
  - intros pre e0 post Heq Hc e' Hin.
    apply snoc_split in Heq as [(-> & _ & _) | (post' & -> & ->)].
    + inversion Hin.
    + assert (false = true); [|done]. apply He. exists e0.
      split; [|done]. apply elem_of_app. right. by left.
  - intros pre post Heq.
    apply snoc_split in Heq as [(-> & _ & _) | (post' & -> & ->)]; [done|].
    assert (false = true); [|done]. apply Hx.
    apply elem_of_app. right. by left.
  - split.
    + intros Hc. exists e. split; [|done]. apply elem_of_app. right. by left.
    + intros (e' & Hin & Hc). apply elem_of_app in Hin as [Hin|Hin].
      * assert (false = true); [|done]. apply He. by exists e'.
      * apply list_elem_of_singleton in Hin. by injection Hin as ->.
  - split; [done|]. intros Hin. apply elem_of_app in Hin as [Hin|Hin].
    + by apply Hx.
    + apply list_elem_of_singleton in Hin. done.
Qed.

Lemma flags_inv_yield tr en ex v :
  flags_inv tr en false → (ex = true ↔ v = Some []) →
  flags_inv (tr ++ [Yield v]) en ex.
Proof.
  intros [Hq Hl He Hx] Hv. split.
  - intros pre e0 post Heq Hc e' Hin.
    apply snoc_split in Heq as [(-> & _ & _) | (post' & -> & ->)].
    + inversion Hin.
    + apply elem_of_app in Hin as [Hin|Hin].
      * by apply (Hq pre e0 post' eq_refl Hc e').
      * apply list_elem_of_singleton in Hin. done.
  - intros pre post Heq.
    apply snoc_split in Heq as [(-> & _ & _) | (post' & -> & ->)]; [done|].
    assert (false = true); [|done]. apply Hx.
    apply elem_of_app. right. by left.
  - rewrite He. split; intros (e & Hin & Hc); exists e; (split; [|done]).
    + apply elem_of_app. by left.
    + apply elem_of_app in Hin as [Hin|Hin]; [done|].
      apply list_elem_of_singleton in Hin. done.
  - rewrite Hv. split.
    + intros ->. apply elem_of_app. right. by left.
    + intros Hin. apply elem_of_app in Hin as [Hin|Hin].
      * assert (false = true); [|done]. by apply Hx.
      * apply list_elem_of_singleton in Hin. by injection Hin as <-.
Qed.

Lemma recv_loop_inv fuel n rv s :
  stream_inv s → exhausted s = false → stream_inv (recv_loop fuel n rv s).2.
Proof.
  unfold stream_inv.
  revert rv s. induction fuel as [|fuel IH]; intros rv s Hinv Hex; simpl; [done|].
  pose proof (_read_step s) as Hstep.
  destruct (_read s) as [o s1]; simpl in Hstep.
  inversion Hstep as [He | He Hr | e rest He Hr]; subst; simpl; [| done |].
  - rewrite Hex in Hinv. by apply flags_inv_yield.
  - rewrite He, Hex in Hinv.
    assert (∀ ex, (ex = true ↔ yield_of e = Some []) →
                  flags_inv (trace s ++ [Recv e; Yield (yield_of e)]) (closes e) ex)
      as Hnew.
    { intros ex Hv. change (trace s ++ [Recv e; Yield (yield_of e)])
        with (trace s ++ [Recv e] ++ [Yield (yield_of e)]).
      rewrite app_assoc. apply flags_inv_yield; [|done]. by apply flags_inv_recv. }
    destruct (yield_of e) as [buf|] eqn:Hy; simpl; rewrite ?Hex;
      [|by apply Hnew].
    destruct (len buf =? 0) eqn:Hlen; simpl; rewrite ?Hex.
    + apply Hnew. apply Z.eqb_eq, len_nil_inv in Hlen as ->. done.
    + assert (flags_inv (trace s ++ [Recv e; Yield (Some buf)]) (closes e) false)
        as Hnew'.
      { apply Hnew. split; [done|]. intros [= ->]. done. }
      match goal with
      | |- context [if ?c then _ else recv_loop fuel n ?rv' ?s'] =>
          destruct c; simpl; rewrite ?Hex; [done | apply (IH rv' s'); simpl; done]
      end.
Qed.

Lemma read_bounded_inv n s : stream_inv s → stream_inv (read_bounded n s).2.
Proof.
  intros Hinv. unfold read_bounded.
  destruct ((n =? 0) || exhausted s) eqn:E; [exact Hinv|].
  apply orb_false_iff in E as [_ Hex].
  destruct (buffer s) as [buf|]; [|exact Hinv].
  destruct (len (slice buf (bufp s) (bufp s + n)) =? n); [exact Hinv|].
  by apply recv_loop_inv.
Qed.

Lemma readall_loop_inv fuel rv s :
  stream_inv s → stream_inv (readall_loop fuel rv s).2.
Proof.
  revert rv s. induction fuel as [|fuel IH]; intros rv s Hinv; simpl; [done|].
  apply (read_bounded_inv 8192) in Hinv.
  destruct (read_bounded 8192 s) as [[v| | |] s1]; simpl in *; try done.
  destruct (len v =? 0); [done|]. by apply IH.
Qed.

Lemma read_inv fuel n s : stream_inv s → stream_inv (read fuel n s).2.
Proof.
  unfold read. destruct (n =? -1);
    [apply readall_loop_inv | apply read_bounded_inv].
Qed.

Lemma reads_inv fuel ns s : stream_inv s → stream_inv (reads fuel ns s).2.
Proof.
  revert s. induction ns as [|n ns IH]; intros s Hinv; simpl; [done|].
  apply (read_inv fuel n) in Hinv.
  destruct (read fuel n s) as [o s1]; simpl in *.
  specialize (IH s1 Hinv). by destruct (reads fuel ns s1).
Qed.

Lemma init_inv evs : stream_inv (init evs).
Proof.
  split; simpl.
  - intros pre e post H. by destruct pre.
  - intros pre post H. by destruct pre.
  - split; [done|]. intros (e & H & _). inversion H.
  - split; [done|]. intros H. inversion H.
Qed.

(** C6: after any sequence of reads on a fresh stream, over any messages:
    no message was taken from the receiver after one that set [ended] (the
    flag is set exactly when such a message was taken), and with [ended] set
    [_read] returns the empty bytes and leaves the receiver alone;
    [exhausted] is set exactly when a call of [_read] has returned the empty
    bytes, nothing was received or returned after that, and from then on
    every read returns the empty bytes and changes nothing. *)
Theorem ended_exhausted_discipline (fuel : nat) (ns : list Z) (evs : list event) :
  let s := (reads fuel ns (init evs)).2 in
  (∀ pre e post, trace s = pre ++ Recv e :: post → closes e = true →
                 ∀ e', Recv e' ∉ post) ∧
  (ended s = true ↔ ∃ e, Recv e ∈ trace s ∧ closes e = true) ∧
  (∀ s0, ended s0 = true →
         _read s0 = (Ok (Some []), record (Yield (Some [])) s0)
         ∧ receiver (_read s0).2 = receiver s0) ∧
  (exhausted s = true ↔ Yield (Some []) ∈ trace s) ∧
  (∀ pre post, trace s = pre ++ Yield (Some []) :: post → post = []) ∧
  (exhausted s = true →
   ∀ fuel' ms, reads (S fuel') ms s = ((λ _, Ok []) <$> ms, s)).
Proof.
  intros s. destruct (reads_inv fuel ns (init evs) (init_inv evs)) as [Hq Hl He Hx].
  fold s in Hq, Hl, He, Hx.
  split; [exact Hq|]. split; [exact He|]. split.
  { intros s0 H0. rewrite _read_ended by done. done. }
  split; [exact Hx|]. split; [exact Hl|].
  intros H fuel' ms. by apply reads_when_exhausted.
Qed.

(** ** The stream as a queue of bytes *)

Lemma slice_prefix {A} (l : list A) (k : Z) :
  0 ≤ k → slice l 0 k = take (Z.to_nat k) l.
Proof.
  intros Hk. unfold slice, clamp_index. pose proof (len_nonneg l) as Hl.
  replace (0 <? 0) with false by done.
  replace (k <? 0) with false by lia.
  rewrite (Z.min_l 0) by done. simpl. rewrite drop_0, Z.sub_0_r.
  destruct (Z.le_gt_cases k (len l)).
  - by rewrite Z.min_l.
  - rewrite Z.min_r by lia. rewrite !take_ge; [done | unfold len in *; lia..].
Qed.

Lemma slice_from {A} (l : list A) (p n : Z) :
  0 ≤ p ≤ len l → 0 ≤ n →
  slice l p (p + n) = take (Z.to_nat n) (drop (Z.to_nat p) l).
Proof.
  intros Hp Hn. unfold slice, clamp_index.
  replace (p <? 0) with false by lia.
  replace (p + n <? 0) with false by lia.
  rewrite (Z.min_l p) by lia.
  destruct (Z.le_gt_cases (p + n) (len l)).
  - rewrite Z.min_l by done. f_equal. lia.
  - rewrite Z.min_r by lia.
    rewrite !take_ge; [done | rewrite length_drop; unfold len in *; lia..].
Qed.

Lemma body_stream_head e rest :
  body_stream (e :: rest) →
  yield_of e = Some (body_of e) ∧
  (closes e = false → body_stream rest) ∧
  (e :: rest) ≫= body_of = body_of e ++ (if closes e then [] else rest ≫= body_of) ∧
  (body_of e = [] → closes e = true).
Proof.
  simpl. intros [Ht Hrest]. unfold yield_of, closes. rewrite Ht. simpl.
  destruct rest as [|e' rest'].
  - rewrite Hrest. simpl. by rewrite app_nil_r.
  - destruct Hrest as (-> & Hne & Hrest). simpl. done.
Qed.

Lemma recv_loop_spec fuel n rv s :
  0 < n → len rv < n → exhausted s = false →
  (ended s = false → body_stream (receiver s)) →
  (length (receiver s) < fuel)%nat →
  ∃ s', recv_loop fuel n rv s
        = (Ok (rv ++ take (Z.to_nat (n - len rv)) (incoming s)), s') ∧
        good s' ∧
        unread s' = drop (Z.to_nat (n - len rv)) (incoming s).
Proof.
  intros Hn. revert rv s.
  induction fuel as [|fuel IH]; intros rv s Hrv Hex Hbody Hfuel; [lia|].
  simpl. pose proof (_read_step s) as Hstep.
  destruct (_read s) as [o s1]; simpl in Hstep.
  inversion Hstep as [He | He Hr | e rest He Hr]; subst; simpl.
  - unfold incoming. rewrite He. rewrite take_nil, drop_nil, app_nil_r.
    eexists. split; [done|]. split; [by left|]. done.
  - specialize (Hbody He). rewrite Hr in Hbody. done.
  - specialize (Hbody He). rewrite Hr in Hbody.
    apply body_stream_head in Hbody as (Hy & Hrest & Hcat & Hempty).
    unfold incoming at 1 2. rewrite He, Hr, Hcat, Hy. clear Hcat Hy.
    set (c := body_of e) in *.
    set (R := if closes e then [] else rest ≫= body_of).
    pose proof (len_nonneg rv) as Hrv0. pose proof (len_nonneg c) as Hc0.
    destruct (len c =? 0) eqn:Hlen.
    { apply Z.eqb_eq, len_nil_inv in Hlen. subst R. rewrite Hempty by done.
      rewrite Hlen. simpl. rewrite take_nil, drop_nil, app_nil_r.
      eexists. split; [done|]. split; [by left|]. done. }
    apply Z.eqb_neq in Hlen.
    rewrite slice_prefix by lia.
    remember (Z.to_nat (n - len rv)) as k eqn:Hkdef.
    rewrite take_app, drop_app.
    destruct (len (rv ++ take k c) =? n) eqn:Hfull.
    + apply Z.eqb_eq in Hfull. rewrite len_app in Hfull.
      assert (k ≤ length c)%nat as Hk.
      { len_lia. }
      replace (k - length c)%nat with 0%nat by lia. rewrite take_0, drop_0, app_nil_r.
      eexists. split; [done|]. split.
      * right. exists c. simpl. split; [done|]. split; [len_lia|done].
      * unfold unread, incoming. simpl. rewrite Hex.
        subst R. f_equal. f_equal. len_lia.
    + apply Z.eqb_neq in Hfull. rewrite len_app in Hfull.
      assert (length c < k)%nat as Hk.
      { len_lia. }
      rewrite take_ge by lia. rewrite take_ge in Hfull by lia.
      rewrite (drop_ge c) by lia. simpl.
      match goal with
      | |- context [recv_loop fuel n ?rv' ?s1] =>
          destruct (IH rv' s1) as (s' & Hloop & Hgood & Hun)
      end; simpl; [rewrite len_app; len_lia | done | done | rewrite Hr in Hfuel; simpl in Hfuel; lia |].
      rewrite Hloop. exists s'. rewrite len_app in Hun |- *.
      unfold incoming in Hun |- *; simpl in Hun |- *. fold R in Hun |- *.
      replace (Z.to_nat (n - (len rv + len c))) with (k - length c)%nat in *
        by (len_lia).
      split; [by rewrite <- app_assoc | done].
Qed.

Lemma read_bounded_short_exhausted n s rv s' :
  0 < n → read_bounded n s = (Ok rv, s') → len rv < n → exhausted s' = true.
Proof.
  intros Hn Hread Hshort. unfold read_bounded in Hread.
  destruct ((n =? 0) || exhausted s) eqn:E0.
  - injection Hread as <- <-. apply orb_true_iff in E0 as [?|?]; [lia|done].
  - destruct (buffer s) as [buf|]; [|done].
    destruct (len (slice buf (bufp s) (bufp s + n)) =? n) eqn:E1.
    + injection Hread as <- <-. lia.
    + apply recv_loop_full_or_exhausted in Hread as [?|?]; [lia|done].
Qed.

(** A bounded read takes the first [n] unread bytes. *)
Lemma read_bounded_spec n s :
  0 < n → good s →
  ∃ s', read_bounded n s = (Ok (take (Z.to_nat n) (unread s)), s') ∧
        good s' ∧ unread s' = drop (Z.to_nat n) (unread s).
Proof.
  intros Hn Hgood. unfold read_bounded, unread.
  replace (n =? 0) with false by lia. cbn -[recv_loop].
  destruct (exhausted s) eqn:Hex.
  { exists s. rewrite take_nil, drop_nil, Hex. done. }
  destruct Hgood as [?|(buf & Hbuf & Hp & Hbody)]; [congruence|].
  rewrite Hbuf. cbn -[recv_loop]. rewrite slice_from by lia.
  set (rest := drop (Z.to_nat (bufp s)) buf).
  rewrite take_app, drop_app.
  destruct (len (take (Z.to_nat n) rest) =? n) eqn:Hfull.
  - apply Z.eqb_eq in Hfull.
    assert (Z.to_nat n ≤ length rest)%nat as Hk.
    { len_lia. }
    replace (Z.to_nat n - length rest)%nat with 0%nat by lia.
    rewrite take_0, drop_0, app_nil_r.
    eexists. split; [done|]. cbn -[recv_loop]. rewrite Hex, Hbuf. split.
    + right. exists buf. cbn -[recv_loop]. split; [done|]. split; [|done].
      subst rest. rewrite length_drop in Hk. unfold len. lia.
    + cbn -[recv_loop]. subst rest. rewrite drop_drop. unfold incoming. cbn -[recv_loop].
      f_equal. f_equal. lia.
  - apply Z.eqb_neq in Hfull.
    assert (length rest < Z.to_nat n)%nat as Hk.
    { len_lia. }
    rewrite take_ge by lia. rewrite (drop_ge rest) by lia. cbn -[recv_loop].
    destruct (recv_loop_spec (S (length (receiver s))) n rest s)
      as (s' & Hloop & Hgood & Hun); [done | len_lia | done | done | lia |].
    rewrite Hloop. exists s'.
    replace (Z.to_nat (n - len rest)) with (Z.to_nat n - length rest)%nat in *
      by (len_lia).
    done.
Qed.

(** The loop of [read(-1)] returns all unread bytes, given a turn for each
    and one more. *)
Lemma readall_loop_spec fuel acc s :
  good s → (length (unread s) < fuel)%nat →
  ∃ s', readall_loop fuel acc s = (Ok (acc ++ unread s), s') ∧
        exhausted s' = true.
Proof.
  revert acc s. induction fuel as [|fuel IH]; intros acc s Hgood Hfuel; [lia|].
  simpl.
  destruct (read_bounded_spec 8192 s) as (s1 & Hread & Hgood1 & Hun1); [lia|done|].
  rewrite Hread.
  destruct (len (take (Z.to_nat 8192) (unread s)) =? 0) eqn:Hlen.
  - apply Z.eqb_eq in Hlen.
    exists s1. split.
    + apply len_nil_inv in Hlen.
      assert (unread s = []) as ->; [|by rewrite app_nil_r].
      destruct (unread s) as [|x l]; [done|].
      destruct (Z.to_nat 8192) eqn:E; [lia | done].
    + apply (read_bounded_short_exhausted 8192 s _ s1 ltac:(lia) Hread). lia.
  - apply Z.eqb_neq in Hlen.
    assert (unread s ≠ []) as Hne.
    { intros E. rewrite E, take_nil in Hlen. done. }
    destruct (IH (acc ++ take (Z.to_nat 8192) (unread s)) s1)
      as (s' & Hloop & Hex); [done| |].
    { rewrite Hun1, length_drop. destruct (unread s); [done|].
      cbn [length] in *. lia. }
    exists s'. rewrite Hloop, Hun1, <- app_assoc, take_drop. done.
Qed.

Lemma init_good evs : body_stream evs → good (init evs).
Proof.
  intros H. right. exists []. simpl. split; [done|]. split; [unfold len; simpl; lia|done].
Qed.

(** C2 (amended): when the body arrives as data messages, each but the last
    marked [more_body] and not empty and the last unmarked, a read with [n]
    unspecified or [-1] on the fresh stream returns the bytes of all the
    messages in order, leaves the stream exhausted, and every later read
    returns the empty bytes: the body is returned once. *)
Theorem read_all_returns_body (fuel : nat) (evs : list event) :
  body_stream evs →
  (length (evs ≫= body_of) < fuel)%nat →
  ∃ s', read fuel (-1) (init evs) = (Ok (evs ≫= body_of), s') ∧
        exhausted s' = true ∧
        ∀ fuel' ms, reads (S fuel') ms s' = ((λ _, Ok []) <$> ms, s').
Proof.
  intros Hbody Hfuel.
  destruct (readall_loop_spec fuel [] (init evs)) as (s' & Hloop & Hex).
  { by apply init_good. }
  { done. }
  exists s'. split; [exact Hloop|]. split; [done|].
  intros. by apply reads_when_exhausted.
Qed.

Lemma read_all_returns_body_witness :
  let evs := [data "ab" true; data "cde" true; data "f" false] in
  body_stream evs ∧
  ∃ s', read 7 (-1) (init evs) = (Ok (lit "abcdef"), s') ∧ exhausted s' = true.
Proof.
  intros evs.
  assert (body_stream evs) as Hbody.
  { simpl. repeat split; discriminate. }
  split; [exact Hbody|].
  destruct (read_all_returns_body 7 evs Hbody) as (s' & Hread & Hex & _).
  - vm_compute. lia.
  - exists s'. split; [exact Hread | exact Hex].
Defined.

(** C2 fails as stated: [read(-2)] drops the last two bytes of the message,
    and with [n = -1] a message with no bytes that is marked [more_body]
    ends the body before the bytes that follow it. *)
Lemma read_all_counterexample :
  (read 5 (-2) (init [data "abc" false])).1 = Ok (lit "a") ∧
  (read 5 (-1) (init [data "ab" true; data "" true; data "cd" false])).1
  = Ok (lit "ab").
Proof. split; vm_compute; reflexivity. Qed.

(** * Properties of the translation of the scope *)

Lemma wsgi_key_not_base k : wsgi_key_of k ∉ base_keys.
Proof.
  unfold wsgi_key_of. generalize (upper (replace_dash (decode k))). intros u.
  case_bool_decide as Hu.
  - intros Hin.
    apply elem_of_cons in Hu as [->|Hu];
      [|apply list_elem_of_singleton in Hu as ->];
      vm_compute in Hin; apply list_elem_of_In in Hin; simpl in Hin;
      repeat (destruct Hin as [Hin|Hin]; [discriminate Hin|]); done.
  - intros Hin. apply list_elem_of_In in Hin.
    cbv in Hin.
    repeat (destruct Hin as [Hin|Hin]; [discriminate Hin|]). done.
Qed.

Lemma values_for_base key hs : key ∈ base_keys → values_for key hs = [].
Proof.
  intros Hkey. unfold values_for. induction hs as [|[k v] hs IH]; [done|].
  rewrite filter_cons. case_decide as Hk; [|done].
  simpl in Hk. subst key. by apply wsgi_key_not_base in Hkey.
Qed.

Lemma base_environ_None sc q key :
  key ∉ base_keys → scope_environ sc q !! key = None.
Proof.
  intros Hkey. unfold scope_environ, base_environ.
  repeat (rewrite lookup_insert_ne;
          [|intros <-; apply Hkey; unfold base_keys; set_solver]).
  apply lookup_empty.
Qed.

Lemma base_environ_lookup sc q :
  let m := scope_environ sc q in
  m !! str "REQUEST_METHOD" = Some (VStr (method sc)) ∧
  m !! str "SCRIPT_NAME" = Some (VStr (default [] (root_path sc))) ∧
  m !! str "PATH_INFO" = Some (VStr (default [] (root_path sc) ++ path sc)) ∧
  m !! str "QUERY_STRING" = Some (VStr q) ∧
  m !! str "SERVER_NAME" = Some (endpoint_or_null (server sc)).1 ∧
  m !! str "SERVER_PORT" = Some (endpoint_or_null (server sc)).2 ∧
  m !! str "REMOTE_HOST" = Some (endpoint_or_null (client sc)).1 ∧
  m !! str "REMOTE_ADDR" = Some (endpoint_or_null (client sc)).1 ∧
  m !! str "REMOTE_PORT" = Some (endpoint_or_null (client sc)).2 ∧
  m !! str "wsgi.url_scheme" = Some (VStr (default (str "http") (scheme sc))).
Proof.
  intros m. subst m. unfold scope_environ, base_environ.
  repeat split;
    repeat (rewrite lookup_insert_ne by (intros [=]));
    by rewrite lookup_insert_eq.
Qed.

Lemma add_headers_spec hs env :
  (∀ k v, env !! wsgi_key_of k = Some v → ∃ s, v = VStr s) →
  ∃ env', add_headers hs env = Ok env' ∧
          ∀ key, env' !! key = foldl extend (env !! key) (values_for key hs).
Proof.
  revert env. induction hs as [|[k v] hs IH]; intros env Hstr.
  { by exists env. }
  cbn [add_headers]. set (key0 := wsgi_key_of k).
  assert (∀ env1,
            (∀ key, env1 !! key
                    = if decide (key0 = key) then extend (env !! key) (decode v)
                      else env !! key) →
            ∃ env', add_headers hs env1 = Ok env' ∧
                    ∀ key, env' !! key
                           = foldl extend (env !! key) (values_for key ((k, v) :: hs)))
    as Hnext.
  { intros env1 Hlook. destruct (IH env1) as (env' & Hadd & Hspec).
    { intros k' v' H. rewrite Hlook in H. case_decide as Hk; [|by eapply Hstr].
      unfold extend in H. destruct (env !! wsgi_key_of k') as [old|] eqn:Hold.
      - destruct (Hstr k' old Hold) as [o ->]. injection H as <-. by eexists.
      - injection H as <-. by eexists. }
    exists env'. split; [done|]. intros key. rewrite Hspec, Hlook.
    unfold values_for. rewrite filter_cons. cbn [fst]. fold key0.
    case_decide; done. }
  destruct (env !! key0) as [old|] eqn:Hold.
  - destruct (Hstr k old Hold) as [o ->]. apply Hnext.
    intros key. rewrite lookup_insert.
    case_decide as Hk; [|done]. subst key. by rewrite Hold.
  - apply Hnext. intros key. rewrite lookup_insert.
    case_decide as Hk; [|done]. subst key. by rewrite Hold.
Qed.

Lemma foldl_extend_str o vs :
  foldl extend (Some (VStr o)) vs = Some (VStr (o ++ (vs ≫= λ x, str "; " ++ x))).
Proof.
  revert o. induction vs as [|v vs IH]; intros o; simpl.
  - by rewrite app_nil_r.
  - rewrite IH. by rewrite <- !app_assoc.
Qed.

Lemma foldl_extend_None vs :
  vs ≠ [] → foldl extend None vs = Some (VStr (join_with (str "; ") vs)).
Proof. destruct vs as [|v vs]; [done|]. intros _. simpl. apply foldl_extend_str. Qed.

Lemma get_endpoint_ok field :
  field ≠ Some None → get_endpoint field = Ok (endpoint_or_null field).
Proof. by destruct field as [[ep|]|]. Qed.

Lemma asgi_scope_to_environ_ok sc environ :
  asgi_scope_to_environ sc = Ok environ → endpoints_ok sc.
Proof.
  unfold asgi_scope_to_environ, endpoints_ok.
  destruct (query_string sc); [|done].
  destruct (server sc) as [[srv|]|]; destruct (client sc) as [[cli|]|]; done.
Qed.

(** With a query string in the scope and endpoints that are absent or
    lists, the translation returns a map; each entry is the entry of the
    dictionary literal, extended by the headers of its key. *)
Lemma asgi_scope_to_environ_spec sc q :
  query_string sc = Some q →
  endpoints_ok sc →
  ∃ environ, asgi_scope_to_environ sc = Ok environ ∧
    ∀ key, environ !! key
           = foldl extend (scope_environ sc (decode q) !! key)
                   (values_for key (default [] (headers sc))).
Proof.
  intros Hq [Hs Hc]. unfold asgi_scope_to_environ. rewrite Hq.
  rewrite (get_endpoint_ok _ Hs), (get_endpoint_ok _ Hc). cbn [mbind outcome_bind].
  apply add_headers_spec. intros k v H.
  change (base_environ sc (decode q) (endpoint_or_null (server sc))
            (endpoint_or_null (client sc)))
    with (scope_environ sc (decode q)) in H.
  rewrite base_environ_None in H by apply wsgi_key_not_base. done.
Qed.

Lemma environ_base_key sc q environ key :
  query_string sc = Some q → asgi_scope_to_environ sc = Ok environ →
  key ∈ base_keys → environ !! key = scope_environ sc (decode q) !! key.
Proof.
  intros Hq Henv Hkey.
  destruct (asgi_scope_to_environ_spec sc q Hq (asgi_scope_to_environ_ok _ _ Henv))
    as (environ' & Henv' & Hspec).
  rewrite Henv in Henv'. injection Henv' as <-.
  rewrite Hspec, values_for_base by done. done.
Qed.

Lemma base_key_is_Some sc q key :
  key ∈ base_keys → is_Some (scope_environ sc q !! key).
Proof.
  intros Hkey. destruct (base_environ_lookup sc q)
    as (H1 & H2 & H3 & H4 & H5 & H6 & H7 & H8 & H9 & H10).
  unfold base_keys in Hkey. apply list_elem_of_In in Hkey. simpl in Hkey.
  repeat (destruct Hkey as [<-|Hkey]; [by eexists|]). done.
Qed.

Lemma values_for_nonempty key hs :
  values_for key hs ≠ [] ↔ ∃ k v, (k, v) ∈ hs ∧ key = wsgi_key_of k.
Proof.
  unfold values_for. split.
  - intros Hne. destruct (filter _ hs) as [|[k v] l] eqn:Hf; [done|].
    assert ((k, v) ∈ filter (λ kv, wsgi_key_of kv.1 = key) hs) as Hin.
    { rewrite Hf. by left. }
    apply list_elem_of_filter in Hin as [Hk Hin]. by exists k, v.
  - intros (k & v & Hin & ->) Hnil. apply fmap_nil_inv in Hnil.
    assert ((k, v) ∈ filter (λ kv, wsgi_key_of kv.1 = wsgi_key_of k) hs) as Hf.
    { by apply list_elem_of_filter. }
    rewrite Hnil in Hf. inversion Hf.
Qed.

(** C8 (amended): with a query string in the scope (and no endpoint key
    holding [None]), the translation returns a map with one entry for each distinct translated key of the header
    list and for each of the ten keys of the scope, and no other; the key of
    a header is its name decoded, with dashes turned to underscores and
    upper-cased, prefixed with HTTP_ unless that gives CONTENT_TYPE or
    CONTENT_LENGTH; the entry of a key is the values of all headers that
    translate to it, in the order of the list, joined with "; ". *)
Theorem headers_joined_per_key (sc : scope) (q : bytes) (hs : list (bytes * bytes)) :
  query_string sc = Some q →
  endpoints_ok sc →
  headers sc = Some hs →
  ∃ environ, asgi_scope_to_environ sc = Ok environ ∧
    (∀ k v, (k, v) ∈ hs →
       environ !! wsgi_key_of k
       = Some (VStr (join_with (str "; ") (values_for (wsgi_key_of k) hs)))) ∧
    (∀ key, is_Some (environ !! key) ↔
            key ∈ base_keys ∨ ∃ k v, (k, v) ∈ hs ∧ key = wsgi_key_of k) ∧
    (∀ k, wsgi_key_of k =
          let name := upper (replace_dash (decode k)) in
          if bool_decide (name ∈ [str "CONTENT_TYPE"; str "CONTENT_LENGTH"])
          then name else str "HTTP_" ++ name).
Proof.
  intros Hq Hok Hhs.
  destruct (asgi_scope_to_environ_spec sc q Hq Hok) as (environ & Henv & Hspec).
  rewrite Hhs in Hspec. simpl in Hspec.
  exists environ. split; [done|]. split; [|split; [|done]].
  - intros k v Hin. rewrite Hspec.
    rewrite base_environ_None by apply wsgi_key_not_base.
    apply foldl_extend_None. apply values_for_nonempty. by exists k, v.
  - intros key. rewrite Hspec, <- values_for_nonempty.
    destruct (decide (key ∈ base_keys)) as [Hb|Hb].
    + rewrite values_for_base by done. simpl. split; [by left|].
      intros _. by apply base_key_is_Some.
    + rewrite base_environ_None by done.
      destruct (values_for key hs) as [|v vs] eqn:Hv.
      * simpl. split; [by intros [? [=]] | by intros [?|?]].
      * rewrite foldl_extend_None by done. split; [by right | by eexists].
Qed.

Lemma headers_joined_per_key_witness :
  let hs := [(lit "x-a", lit "1"); (lit "content-type", lit "t"); (lit "x-a", lit "2")] in
  let sc := Scope (str "GET") (str "/x") None (Some (lit "a=1")) None None None (Some hs) in
  ∃ environ, asgi_scope_to_environ sc = Ok environ ∧
    environ !! str "HTTP_X_A" = Some (VStr (str "1; 2")) ∧
    environ !! str "CONTENT_TYPE" = Some (VStr (str "t")).
Proof.
  intros hs sc.
  destruct (headers_joined_per_key sc (lit "a=1") hs eq_refl
              ltac:(split; discriminate) eq_refl)
    as (environ & Henv & Hjoin & _).
  exists environ. split; [exact Henv|]. split.
  - apply (Hjoin (lit "x-a") (lit "1")). by left.
  - apply (Hjoin (lit "content-type") (lit "t")). right. by left.
Defined.

(** C8 fails as stated: the names [x-a] and [x_a] differ and share one
    entry, which joins the values of both. *)
Lemma headers_counterexample :
  lit "x-a" ≠ lit "x_a" ∧
  (λ m, (size m, m !! str "HTTP_X_A")) <$>
  asgi_scope_to_environ
    (Scope (str "GET") (str "/") None (Some []) None None None
       (Some [(lit "x-a", lit "1"); (lit "x_a", lit "2")]))
  = Ok (11%nat, Some (VStr (str "1; 2"))).
Proof. split; [discriminate|]. vm_compute. reflexivity. Qed.

(** C4 (amended): with a query string in the scope, and each endpoint key
    absent or holding a list (not [None]), the translation raises nothing,
    and for an absent server or client the entries of its keys are [None],
    for an absent root path SCRIPT_NAME is the empty string and PATH_INFO
    the path, for an absent scheme the entry is "http", and for an absent
    header list the map is the ten entries of the scope. *)
Theorem absent_fields_default (sc : scope) (q : bytes) :
  query_string sc = Some q →
  endpoints_ok sc →
  ∃ environ, asgi_scope_to_environ sc = Ok environ ∧
    (server sc = None →
       environ !! str "SERVER_NAME" = Some VNone ∧
       environ !! str "SERVER_PORT" = Some VNone) ∧
    (client sc = None →
       environ !! str "REMOTE_HOST" = Some VNone ∧
       environ !! str "REMOTE_ADDR" = Some VNone ∧
       environ !! str "REMOTE_PORT" = Some VNone) ∧
    (root_path sc = None →
       environ !! str "SCRIPT_NAME" = Some (VStr []) ∧
       environ !! str "PATH_INFO" = Some (VStr (path sc))) ∧
    (scheme sc = None →
       environ !! str "wsgi.url_scheme" = Some (VStr (str "http"))) ∧
    (headers sc = None → environ = scope_environ sc (decode q)).
Proof.
  intros Hq Hok.
  destruct (asgi_scope_to_environ_spec sc q Hq Hok) as (environ & Henv & Hspec).
  exists environ. split; [done|].
  assert (∀ key, key ∈ base_keys →
                 environ !! key = scope_environ sc (decode q) !! key) as Hbase.
  { intros key Hkey. by apply (environ_base_key sc q). }
  destruct (base_environ_lookup sc (decode q))
    as (H1 & H2 & H3 & H4 & H5 & H6 & H7 & H8 & H9 & H10).
  assert (∀ key v, key ∈ base_keys →
                   scope_environ sc (decode q) !! key = Some v →
                   environ !! key = Some v) as Hget.
  { intros key v Hkey Hv. by rewrite Hbase. }
  assert (∀ x, x ∈ base_keys ↔ In x base_keys) as Hin.
  { intros x. apply list_elem_of_In. }
  split.
  { intros E. rewrite E in H5, H6.
    split; (apply Hget; [apply Hin; simpl; tauto | done]). }
  split.
  { intros E. rewrite E in H7, H8, H9.
    repeat split; (apply Hget; [apply Hin; simpl; tauto | done]). }
  split.
  { intros E. rewrite E in H2, H3.
    split; (apply Hget; [apply Hin; simpl; tauto | done]). }
  split.
  { intros E. rewrite E in H10. apply Hget; [apply Hin; simpl; tauto | done]. }
  intros E. apply map_eq. intros key. rewrite Hspec, E. done.
Qed.

Lemma absent_fields_default_witness :
  let sc := Scope (str "GET") (str "/x") None (Some (lit "a=1")) None None None None in
  query_string sc = Some (lit "a=1") ∧
  ∃ environ, asgi_scope_to_environ sc = Ok environ ∧
    environ !! str "SERVER_NAME" = Some VNone ∧
    environ !! str "REMOTE_PORT" = Some VNone ∧
    environ !! str "SCRIPT_NAME" = Some (VStr []) ∧
    environ !! str "wsgi.url_scheme" = Some (VStr (str "http")).
Proof.
  intros sc. split; [reflexivity|].
  destruct (absent_fields_default sc (lit "a=1") eq_refl
              ltac:(split; discriminate))
    as (environ & Henv & Hs & Hc & Hr & Hsch & _).
  exists environ. split; [exact Henv|].
  split; [exact (proj1 (Hs eq_refl))|].
  split; [exact (proj2 (proj2 (Hc eq_refl)))|].
  split; [exact (proj1 (Hr eq_refl)) | exact (Hsch eq_refl)].
Defined.

(** A server or client key that holds [None] has no subscript: the
    translation raises [TypeError], the server first. *)
Example endpoint_none_raises :
  asgi_scope_to_environ
    (Scope (str "GET") (str "/") None (Some []) (Some None) None None None)
  = Raise TypeError ∧
  asgi_scope_to_environ
    (Scope (str "GET") (str "/") None (Some []) None (Some None) None None)
  = Raise TypeError ∧
  asgi_scope_to_environ
    (Scope (str "GET") (str "/") None None (Some None) (Some None) None None)
  = Raise AttributeError.
Proof. done. Qed.

(** C4 fails as stated: for an absent scheme the entry is "http", neither
    empty nor [None]; and for an absent query string the translation
    raises [AttributeError]. *)
Lemma absent_fields_counterexample :
  (λ m, m !! str "wsgi.url_scheme") <$>
    asgi_scope_to_environ
      (Scope (str "GET") (str "/") None (Some []) None None None None)
  = Ok (Some (VStr (str "http"))) ∧
  str "http" ≠ [] ∧
  asgi_scope_to_environ
    (Scope (str "GET") (str "/") None None None None None None)
  = Raise AttributeError.
Proof. split; [vm_compute; reflexivity|]. split; [discriminate | reflexivity]. Qed.

(** * Properties of the response *)

Lemma get_scope_ok : endpoints_ok get_scope.
Proof. by split. Qed.

Section ResponseProperties.

Variable encode : pystr → pystr → outcome bytes.
Variable get_wsgi_headers : ASGIResponse → gmap pystr value → list (pystr * pystr).

Lemma environ_request_method sc q environ :
  query_string sc = Some q → asgi_scope_to_environ sc = Ok environ →
  environ !! str "REQUEST_METHOD" = Some (VStr (method sc)).
Proof.
  intros Hq Henv. rewrite (environ_base_key sc q) by (done || by left).
  by destruct (base_environ_lookup sc (decode q)) as [H _].
Qed.

Lemma call_with_environ debug self sc environ :
  asgi_scope_to_environ sc = Ok environ →
  __call__ encode get_wsgi_headers debug self sc
  = (get_app_iter encode debug self environ ≫= λ it,
     Ok (response_coro self it (get_wsgi_headers self environ))).
Proof.
  intros Henv. unfold __call__, get_wsgi_response. rewrite Henv. simpl.
  by destruct (get_app_iter encode debug self environ).
Qed.


Lemma get_app_iter_plain debug self environ :
  environ !! str "REQUEST_METHOD" = Some (VStr (str "GET")) →
  status_code self = 200 →
  get_app_iter encode debug self environ
  = if direct_passthrough self then
      (if debug then _warn_if_string (response self) else Ok tt) ≫= λ _,
      Ok (Raw (response self))
    else
      Ok (Generator (aiter_encoded encode self
                       (if negb (is_async (response self))
                        then _asyncify (response self) else response self))).
Proof. intros Hm Hs. unfold get_app_iter. rewrite Hm, Hs. reflexivity. Qed.

Lemma aiter_encoded_bytes self (chunks : list bytes) is_async has_len :
  aiter_encoded encode self (Source (Bytes <$> chunks) is_async has_len)
  = Ok <$> (Bytes <$> chunks).
Proof.
  unfold aiter_encoded. cbn [items]. induction chunks as [|c chunks IH]; [done|].
  cbn [fmap list_fmap] in *. by rewrite IH.
Qed.

(** With no length, or a length that the index never reaches, every frame
    of the loop is marked [more_body]. *)
Lemma send_body_all_tagged l i (its : list item) :
  match l with None => True | Some l => i + len its ≤ l end →
  send_body l i (Ok <$> its) = ((λ it, BodyFrame (Some it) true) <$> its, Ok tt).
Proof.
  revert i. induction its as [|it its IH]; intros i Hl; [done|].
  cbn [fmap list_fmap send_body]. rewrite IH.
  - destruct l as [l|]; [|done].
    unfold len in Hl. cbn [length] in Hl. by replace (i <? l) with true by lia.
  - destruct l as [l|]; [|done]. unfold len in *. cbn [length] in Hl. lia.
Qed.

(** C1, what the code does: on a GET request with status 200, a list of
    chunks (three, or any number) is sent as one body frame per chunk, every
    one marked [more_body], and one more frame without body, since [len] of
    the async generator raises; and where [len] succeeds, on a passthrough
    body that is async and has a length (with [__debug__] off), every frame
    is marked [more_body], the last one too, and no frame ends the body. *)
Theorem sized_body_frames (debug : bool) (chunks : list bytes) (cs : pystr) :
  ∃ environ, asgi_scope_to_environ get_scope = Ok environ ∧
    (let self := Response (Source (Bytes <$> chunks) false true) 200 false cs in
     __call__ encode get_wsgi_headers debug self get_scope
     = Ok (StartFrame 200 (get_wsgi_headers self environ)
             :: ((λ c, BodyFrame (Some (Bytes c)) true) <$> chunks)
             ++ [BodyFrame None false], Ok tt)) ∧
    (let self := Response (Source (Bytes <$> chunks) true true) 200 true cs in
     __call__ encode get_wsgi_headers false self get_scope
     = Ok (StartFrame 200 (get_wsgi_headers self environ)
             :: ((λ c, BodyFrame (Some (Bytes c)) true) <$> chunks), Ok tt)).
Proof.
  destruct (asgi_scope_to_environ_spec get_scope [] eq_refl get_scope_ok) as (environ & Henv & _).
  exists environ. split; [done|].
  pose proof (environ_request_method get_scope [] environ eq_refl Henv) as Hm.
  split; intros self; rewrite (call_with_environ _ _ _ environ) by done;
    rewrite get_app_iter_plain by done; subst self;
    cbn [direct_passthrough response is_async negb mbind outcome_bind].
  - unfold _asyncify. cbn [items]. rewrite aiter_encoded_bytes.
    unfold response_coro, try_len, aiter.
    rewrite send_body_all_tagged by done. by rewrite <- list_fmap_compose.
  - unfold response_coro, try_len, aiter. cbn [is_async has_len items].
    rewrite send_body_all_tagged
      by (rewrite Z.add_0_l; unfold len; by rewrite !length_fmap).
    rewrite app_nil_r. by rewrite <- list_fmap_compose.
Qed.

(** The body frames of the three chunks of ten bytes of the specification. *)
Example three_chunk_body_frames :
  let self := Response (Source [Bytes (lit "aaaaaaaaaa"); Bytes (lit "bbbbbbbbbb");
                                Bytes (lit "cccccccccc")] false true)
                200 false (str "utf-8") in
  (λ r, drop 1 r.1) <$> __call__ encode get_wsgi_headers true self get_scope
  = Ok [BodyFrame (Some (Bytes (lit "aaaaaaaaaa"))) true;
        BodyFrame (Some (Bytes (lit "bbbbbbbbbb"))) true;
        BodyFrame (Some (Bytes (lit "cccccccccc"))) true;
        BodyFrame None false].
Proof. vm_compute. reflexivity. Qed.

(** C3, what the code does: for a response marked direct passthrough, on
    a GET request with status 200, [get_app_iter] raises [NameError]
    before anything is sent; with [__debug__] off and a body that is not
    an [AsyncIterable], the start frame is sent and [async for] raises
    [TypeError]: no chunk is delivered.  Only with [__debug__] off and an
    async body are the chunks sent as they are, here for a body without
    length. *)
Theorem passthrough_raises (chunks : list item) (sized : bool) (cs : pystr) :
  let self := Response (Source chunks false sized) 200 true cs in
  let self' := Response (Source chunks true false) 200 true cs in
  __call__ encode get_wsgi_headers true self get_scope = Raise NameError ∧
  __call__ encode get_wsgi_headers true self' get_scope = Raise NameError ∧
  ∃ environ, asgi_scope_to_environ get_scope = Ok environ ∧
    __call__ encode get_wsgi_headers false self get_scope
    = Ok ([StartFrame 200 (get_wsgi_headers self environ)], Raise TypeError) ∧
    __call__ encode get_wsgi_headers false self' get_scope
    = Ok (StartFrame 200 (get_wsgi_headers self' environ)
            :: ((λ it, BodyFrame (Some it) true) <$> chunks)
            ++ [BodyFrame None false], Ok tt).
Proof.
  intros self self'.
  destruct (asgi_scope_to_environ_spec get_scope [] eq_refl get_scope_ok) as (environ & Henv & _).
  pose proof (environ_request_method get_scope [] environ eq_refl Henv) as Hm.
  split; [|split; [|exists environ; split; [done|split]]];
    rewrite (call_with_environ _ _ _ environ) by done;
    rewrite get_app_iter_plain by done;
    cbn [direct_passthrough response self self' mbind outcome_bind _warn_if_string];
    [reflexivity | reflexivity | |].
  - unfold response_coro, try_len, aiter. cbn. by destruct sized.
  - unfold response_coro, try_len, aiter. cbn [is_async has_len items].
    by rewrite send_body_all_tagged.
Qed.

End ResponseProperties.


(** * Further properties of the input stream *)

Lemma slice_len_le {A} (l : list A) (lo n : Z) :
  0 ≤ n → len (slice l lo (lo + n)) ≤ n.
Proof.
  intros Hn. unfold slice, clamp_index, len. rewrite length_take.
  pose proof (len_nonneg l) as Hl. unfold len in Hl.
  destruct (lo <? 0) eqn:E1; destruct (lo + n <? 0) eqn:E2; lia.
Qed.

Lemma recv_loop_at_most fuel n rv s rv' s' :
  0 < n → len rv < n →
  recv_loop fuel n rv s = (Ok rv', s') → len rv' ≤ n.
Proof.
  intros Hn. revert rv s. induction fuel as [|fuel IH]; intros rv s Hrv; simpl; [done|].
  destruct (_read s) as [[v| | |] s1]; try done.
  destruct v as [buf|]; [|done].
  destruct (len buf =? 0); [intros [= <- <-]; lia|].
  destruct (len (rv ++ slice buf 0 (n - len rv)) =? n) eqn:E.
  - intros [= <- <-]. lia.
  - apply IH. apply Z.eqb_neq in E. rewrite len_app in E |- *.
    pose proof (slice_len_le buf 0 (n - len rv) ltac:(lia)) as Hs.
    rewrite Z.add_0_l in Hs. lia.
Qed.

(** X1: a read of [n > 0] bytes never returns more than [n] bytes, whatever
    the state of the stream and the sizes of the messages. *)
Theorem read_at_most_n (fuel : nat) (n : Z) (s s' : stream) (rv : bytes) :
  0 < n →
  read fuel n s = (Ok rv, s') →
  len rv ≤ n.
Proof.
  intros Hn. unfold read. replace (n =? -1) with false by lia.
  unfold read_bounded.
  destruct ((n =? 0) || exhausted s); [intros [= <- <-]; unfold len; simpl; lia|].
  destruct (buffer s) as [buf|]; [|done].
  pose proof (slice_len_le buf (bufp s) n ltac:(lia)) as Hs.
  destruct (len (slice buf (bufp s) (bufp s + n)) =? n) eqn:E.
  - intros [= <- <-]. lia.
  - apply Z.eqb_neq in E. apply recv_loop_at_most; [done | lia].
Qed.

Lemma read_at_most_n_witness :
  let s := init [data "abcdefgh" true; data "ij" false] in
  0 < 3 ∧ read 0 3 s = (Ok (lit "abc"), (read 0 3 s).2) ∧ len (lit "abc") ≤ 3.
Proof.
  intros s.
  assert (read 0 3 s = (Ok (lit "abc"), (read 0 3 s).2)) as Hread
    by (vm_compute; reflexivity).
  split; [lia|]. split; [exact Hread|].
  exact (read_at_most_n 0 3 s _ (lit "abc") ltac:(lia) Hread).
Defined.

Lemma recv_loop_fuel fuel n rv s :
  (length (receiver s) < fuel)%nat → (recv_loop fuel n rv s).1 ≠ OutOfFuel.
Proof.
  revert rv s. induction fuel as [|fuel IH]; intros rv s Hfuel; [lia|].
  simpl. pose proof (_read_step s) as Hstep.
  destruct (_read s) as [o s1]; simpl in Hstep.
  inversion Hstep as [He | He Hr | e rest He Hr]; subst; simpl; [done | done |].
  destruct (yield_of e) as [buf|]; [|done].
  destruct (len buf =? 0); [done|].
  match goal with
  | |- context [if ?c then _ else recv_loop fuel n ?rv' ?s1] =>
      destruct c; [done | apply (IH rv' s1)]
  end.
  simpl. rewrite Hr in Hfuel. simpl in Hfuel. lia.
Qed.

(** X2: the loop of a read with [n] other than [-1] always ends: it takes
    at most one turn more than the receiver has messages, and the read
    returns bytes, raises, or waits on a receiver with nothing to
    deliver. *)
Theorem bounded_read_ends (fuel : nat) (n : Z) (s : stream) :
  n ≠ -1 →
  (read fuel n s).1 ≠ OutOfFuel.
Proof.
  intros Hn. unfold read. replace (n =? -1) with false by lia.
  unfold read_bounded. destruct ((n =? 0) || exhausted s); [done|].
  destruct (buffer s) as [buf|]; [|done].
  destruct (len (slice buf (bufp s) (bufp s + n)) =? n); [done|].
  apply recv_loop_fuel. lia.
Qed.

Lemma bounded_read_ends_witness :
  let s := init [data "ab" true; data "cd" true; data "ef" true] in
  -5 ≠ -1 ∧ (read 0 (-5) s).1 = Blocked ∧ (read 0 (-5) s).1 ≠ OutOfFuel.
Proof.
  intros s. split; [lia|]. split; [vm_compute; reflexivity|].
  exact (bounded_read_ends 0 (-5) s ltac:(lia)).
Defined.

Lemma recv_loop_ended fuel n rv s :
  ended s = true →
  receiver (recv_loop fuel n rv s).2 = receiver s ∧
  ended (recv_loop fuel n rv s).2 = true.
Proof.
  intros He. destruct fuel as [|fuel]; simpl; [done|].
  rewrite _read_ended by done. simpl. done.
Qed.

Lemma read_bounded_ended n s :
  ended s = true →
  receiver (read_bounded n s).2 = receiver s ∧ ended (read_bounded n s).2 = true.
Proof.
  intros He. unfold read_bounded. destruct ((n =? 0) || exhausted s); [done|].
  destruct (buffer s) as [buf|]; [|done].
  destruct (len (slice buf (bufp s) (bufp s + n)) =? n); [done|].
  by apply recv_loop_ended.
Qed.

Lemma readall_loop_ended fuel rv s :
  ended s = true →
  receiver (readall_loop fuel rv s).2 = receiver s ∧
  ended (readall_loop fuel rv s).2 = true.
Proof.
  revert rv s. induction fuel as [|fuel IH]; intros rv s He; simpl; [done|].
  destruct (read_bounded_ended 8192 s He) as [Hr He1].
  destruct (read_bounded 8192 s) as [[v| | |] s1]; simpl in *; try done.
  destruct (len v =? 0); [done|].
  destruct (IH (rv ++ v) s1 He1) as [Hr2 He2]. by rewrite Hr2.
Qed.

(** X3: in any state with [ended] set, whatever the other fields hold, no
    sequence of reads takes a message from the receiver, and [ended] stays
    set. *)
Theorem ended_is_final (fuel : nat) (ns : list Z) (s : stream) :
  ended s = true →
  receiver (reads fuel ns s).2 = receiver s ∧ ended (reads fuel ns s).2 = true.
Proof.
  revert s. induction ns as [|n ns IH]; intros s He; simpl; [done|].
  assert (receiver (read fuel n s).2 = receiver s ∧ ended (read fuel n s).2 = true)
    as [Hr He1].
  { unfold read. destruct (n =? -1);
      [by apply readall_loop_ended | by apply read_bounded_ended]. }
  destruct (read fuel n s) as [o s1]; simpl in *.
  destruct (IH s1 He1) as [Hr2 He2].
  destruct (reads fuel ns s1) as [os s2]; simpl in *. by rewrite Hr2.
Qed.

Lemma ended_is_final_witness :
  let s := (read 0 2 (init [data "abcd" false; data "late" false])).2 in
  ended s = true ∧
  receiver (reads 3 [1; 5; -1; 2] s).2 = [data "late" false].
Proof.
  intros s. split; [vm_compute; reflexivity|].
  destruct (ended_is_final 3 [1; 5; -1; 2] s) as [Hr _]; [vm_compute; reflexivity|].
  rewrite Hr. vm_compute. reflexivity.
Defined.

Lemma recv_loop_raise fuel n rv s e s' :
  recv_loop fuel n rv s = (Raise e, s') →
  e = TypeError ∧ buffer s' = None ∧ exhausted s' = exhausted s.
Proof.
  revert rv s. induction fuel as [|fuel IH]; intros rv s; simpl; [done|].
  pose proof (_read_step s) as Hstep.
  destruct (_read s) as [o s1]; simpl in Hstep.
  inversion Hstep as [He | He Hr | e0 rest He Hr]; subst; simpl; [done | done |].
  destruct (yield_of e0) as [buf|]; [|by intros [= <- <-]].
  destruct (len buf =? 0); [done|].
  match goal with
  | |- context [if ?c then _ else recv_loop fuel n ?rv' ?s1] =>
      destruct c; [done | intros H; by apply IH in H]
  end.
Qed.

Lemma read_bounded_raise n s e s' :
  read_bounded n s = (Raise e, s') →
  e = TypeError ∧ buffer s' = None ∧ exhausted s' = false.
Proof.
  unfold read_bounded. destruct ((n =? 0) || exhausted s) eqn:E; [done|].
  apply orb_false_iff in E as [_ Hex].
  destruct (buffer s) as [buf|] eqn:Hbuf; [|by intros [= <- <-]].
  destruct (len (slice buf (bufp s) (bufp s + n)) =? n); [done|].
  intros H. apply recv_loop_raise in H as (-> & Hb & Hx). by rewrite Hx.
Qed.

Lemma readall_loop_raise fuel rv s e s' :
  readall_loop fuel rv s = (Raise e, s') →
  e = TypeError ∧ buffer s' = None ∧ exhausted s' = false.
Proof.
  revert rv s. induction fuel as [|fuel IH]; intros rv s; simpl; [done|].
  destruct (read_bounded 8192 s) as [[v| | |] s1] eqn:Hread; try done.
  - destruct (len v =? 0); [done | apply IH].
  - intros [= <- <-]. by apply read_bounded_raise in Hread.
Qed.

Lemma read_without_buffer fuel n s :
  buffer s = None → exhausted s = false → n ≠ 0 →
  read (S fuel) n s = (Raise TypeError, s).
Proof.
  intros Hb Hx Hn.
  assert (∀ m, m ≠ 0 → read_bounded m s = (Raise TypeError, s)) as Hm.
  { intros m Hm. unfold read_bounded. replace (m =? 0) with false by lia.
    by rewrite Hx, Hb. }
  unfold read. destruct (n =? -1).
  - simpl. by rewrite Hm.
  - by apply Hm.
Qed.

(** X4: the only exception a read raises is [TypeError], and it is final:
    the buffer then holds [None], and every later read with [n] other than
    0 raises [TypeError] again without touching the stream. *)
Theorem read_error_is_final (fuel : nat) (n : Z) (s s' : stream) (e : exn) :
  read fuel n s = (Raise e, s') →
  e = TypeError ∧ buffer s' = None ∧
  ∀ fuel' m, m ≠ 0 → read (S fuel') m s' = (Raise TypeError, s').
Proof.
  intros Hread.
  assert (e = TypeError ∧ buffer s' = None ∧ exhausted s' = false)
    as (-> & Hb & Hx).
  { unfold read in Hread. destruct (n =? -1);
      [by apply readall_loop_raise in Hread | by apply read_bounded_raise in Hread]. }
  split; [done|]. split; [done|]. intros fuel' m Hm. by apply read_without_buffer.
Qed.

Lemma read_error_is_final_witness :
  let s := init [Event "lifespan.startup" None None; data "ab" false] in
  let s' := (read 0 4 s).2 in
  read 0 4 s = (Raise TypeError, s') ∧
  read 1 (-1) s' = (Raise TypeError, s') ∧ read 1 2 s' = (Raise TypeError, s').
Proof.
  intros s s'.
  assert (read 0 4 s = (Raise TypeError, s')) as Hread by (vm_compute; reflexivity).
  split; [exact Hread|].
  destruct (read_error_is_final 0 4 s s' TypeError Hread) as (_ & _ & Hlater).
  split; [exact (Hlater 0%nat (-1) ltac:(lia)) | exact (Hlater 0%nat 2 ltac:(lia))].
Defined.

(** X5: a read with a negative [n] other than [-1] that returns has drained
    the stream: its loop cannot collect [n] bytes, so it runs until [_read]
    returns the empty bytes and [exhausted] is set. *)
Theorem negative_read_drains (fuel : nat) (n : Z) (s s' : stream) (rv : bytes) :
  n < -1 →
  read fuel n s = (Ok rv, s') →
  exhausted s' = true.
Proof.
  intros Hn. unfold read. replace (n =? -1) with false by lia.
  unfold read_bounded. destruct ((n =? 0) || exhausted s) eqn:E.
  - intros [= <- <-]. apply orb_true_iff in E as [?|?]; [lia|done].
  - destruct (buffer s) as [buf|]; [|done].
    pose proof (len_nonneg (slice buf (bufp s) (bufp s + n))).
    replace (len (slice buf (bufp s) (bufp s + n)) =? n) with false by lia.
    intros H'. apply recv_loop_full_or_exhausted in H' as [H'|H']; [|done].
    pose proof (len_nonneg rv). lia.
Qed.

Lemma negative_read_drains_witness :
  let s := init [data "abcd" true; data "efgh" false] in
  -3 < -1 ∧ read 0 (-3) s = (Ok (lit "a"), (read 0 (-3) s).2) ∧
  exhausted (read 0 (-3) s).2 = true.
Proof.
  intros s.
  assert (read 0 (-3) s = (Ok (lit "a"), (read 0 (-3) s).2)) as Hread
    by (vm_compute; reflexivity).
  split; [lia|]. split; [exact Hread|].
  exact (negative_read_drains 0 (-3) s _ (lit "a") ltac:(lia) Hread).
Defined.

Lemma yield_of_body e buf :
  yield_of e = Some buf → buf ≠ [] → body_of e = buf.
Proof.
  unfold yield_of, body_of.
  destruct (String.eqb (ev_type e) "http.disconnect"); [by intros [= <-]|].
  destruct (String.eqb (ev_type e) "http.request"); [by intros [= <-] | done].
Qed.

Lemma app_eq_self {A} (l1 l2 : list A) : l2 = l1 ++ l2 → l1 = [].
Proof.
  intros H. apply (f_equal length) in H. rewrite length_app in H.
  destruct l1; [done | simpl in H; lia].
Qed.

Lemma yield_of_disconnect e :
  ev_type e = "http.disconnect" → yield_of e = Some [] ∧ closes e = true.
Proof. intros H. unfold yield_of, closes. by rewrite H. Qed.

(** The messages a turn of the loop takes are the first ones of the
    receiver; a disconnect among them is the last, and the loop then
    returns what it has collected. *)
Lemma recv_loop_disconnect fuel n rv s :
  ∃ evs, receiver s = evs ++ receiver (recv_loop fuel n rv s).2 ∧
    ∀ e, e ∈ evs → ev_type e = "http.disconnect" →
      ∃ evs0 rv',
        evs = evs0 ++ [e] ∧
        (recv_loop fuel n rv s).1 = Ok rv' ∧
        exhausted (recv_loop fuel n rv s).2 = true ∧
        ended (recv_loop fuel n rv s).2 = true ∧
        (0 < n → len rv < n → rv' = rv ++ (evs0 ≫= body_of)).
Proof.
  revert rv s. induction fuel as [|fuel IH]; intros rv s; simpl.
  { exists []. split; [done|]. intros e He. inversion He. }
  pose proof (_read_step s) as Hstep.
  destruct (_read s) as [o s1]; simpl in Hstep.
  inversion Hstep as [He | He Hr | e0 rest He Hr]; subst; simpl;
    [exists []; split; [done|]; intros e H; inversion H..|].
  assert (∀ o' s', receiver s' = rest →
            (yield_of e0 = Some [] → o' = Ok rv ∧ exhausted s' = true
                                     ∧ ended s' = closes e0) →
            (∀ e, ev_type e = "http.disconnect" → e = e0 → yield_of e0 = Some []) →
            ∃ evs, receiver s = evs ++ receiver s' ∧
              ∀ e, e ∈ evs → ev_type e = "http.disconnect" →
                ∃ evs0 rv', evs = evs0 ++ [e] ∧ o' = Ok rv' ∧
                  exhausted s' = true ∧ ended s' = true ∧
                  (0 < n → len rv < n → rv' = rv ++ (evs0 ≫= body_of))) as Hstop.
  { intros o' s' Hrest Hempty Hdis. exists [e0]. rewrite Hrest. split; [done|].
    intros e Hin Ht. apply list_elem_of_singleton in Hin as ->.
    destruct (Hempty (Hdis e0 Ht eq_refl)) as (-> & Hx & Hen).
    exists [], rv. rewrite Hen, (proj2 (yield_of_disconnect e0 Ht)).
    repeat split; [done|]. intros _ _. by rewrite app_nil_r. }
  assert (∀ e, ev_type e = "http.disconnect" → e = e0 → yield_of e0 = Some [])
    as Hdis by (intros e Ht ->; by apply yield_of_disconnect).
  destruct (yield_of e0) as [buf|] eqn:Hy; [|by apply Hstop].
  destruct (len buf =? 0) eqn:Hlen.
  { apply Hstop; [done| |done]. done. }
  apply Z.eqb_neq in Hlen.
  assert (buf ≠ []) as Hne by (intros ->; by apply Hlen).
  destruct (len (rv ++ slice buf 0 (n - len rv)) =? n) eqn:Hfull.
  { apply Hstop; [done| |done]. intros [= ->]. done. }
  apply Z.eqb_neq in Hfull.
  match goal with
  | |- context [recv_loop fuel n ?rv' ?s1] =>
      destruct (IH rv' s1) as (evs & Hrecv & Hlast)
  end.
  exists (e0 :: evs). split; [rewrite Hr; simpl; f_equal; exact Hrecv|].
  intros e Hin Ht. apply elem_of_cons in Hin as [->|Hin].
  { specialize (Hdis e0 Ht eq_refl). by injection Hdis as ->. }
  destruct (Hlast e Hin Ht) as (evs0 & rv' & -> & Hout & Hx & Hen & Hval).
  exists (e0 :: evs0), rv'. repeat split; [done..|].
  intros Hn Hrv. rewrite slice_prefix in Hfull, Hval by lia.
  assert (take (Z.to_nat (n - len rv)) buf = buf) as Htake.
  { apply take_ge. rewrite len_app in Hfull.
    unfold len in *. rewrite length_take in Hfull. lia. }
  rewrite Htake in Hfull, Hval. rewrite len_app in Hfull, Hval.
  pose proof (slice_len_le buf 0 (n - len rv) ltac:(lia)) as Hs.
  rewrite Z.add_0_l, slice_prefix, Htake in Hs by lia.
  rewrite Hval by lia.
  change ((e0 :: evs0) ≫= body_of) with (body_of e0 ++ (evs0 ≫= body_of)).
  by rewrite (yield_of_body e0 buf), app_assoc.
Qed.

(** X6: a disconnect message is an end of stream, not an error.  Whatever
    the read (with [n] other than [-1]) had taken before it, the disconnect
    is the last message the read takes: the messages behind it stay with the
    receiver, the read returns without exception, and [ended] and
    [exhausted] are set.  For [n > 0] the bytes returned are the bytes the
    read found in the buffer followed by the bodies of the messages it took
    before the disconnect. *)
Theorem disconnect_ends_stream (fuel : nat) (n : Z) (s : stream)
    (evs : list event) (e : event) :
  n ≠ -1 →
  receiver s = evs ++ receiver (read fuel n s).2 →
  e ∈ evs →
  ev_type e = "http.disconnect" →
  ∃ evs0 rv,
    evs = evs0 ++ [e] ∧
    (read fuel n s).1 = Ok rv ∧
    exhausted (read fuel n s).2 = true ∧
    ended (read fuel n s).2 = true ∧
    (0 < n → ∀ buf, buffer s = Some buf →
       rv = slice buf (bufp s) (bufp s + n) ++ (evs0 ≫= body_of)).
Proof.
  intros Hn. unfold read. replace (n =? -1) with false by lia.
  unfold read_bounded.
  destruct ((n =? 0) || exhausted s);
    [intros H; apply app_eq_self in H as ->; intros Hin; inversion Hin|].
  destruct (buffer s) as [buf|] eqn:Hb;
    [|intros H; apply app_eq_self in H as ->; intros Hin; inversion Hin].
  destruct (len (slice buf (bufp s) (bufp s + n)) =? n) eqn:Hfull;
    [intros H; apply app_eq_self in H as ->; intros Hin; inversion Hin|].
  apply Z.eqb_neq in Hfull.
  destruct (recv_loop_disconnect (S (length (receiver s))) n
              (slice buf (bufp s) (bufp s + n)) s) as (evs' & Hrecv & Hlast).
  intros Hevs Hin Ht. rewrite Hrecv in Hevs at 1.
  apply app_inv_tail in Hevs as <-.
  destruct (Hlast e Hin Ht) as (evs0 & rv & -> & Hout & Hx & Hen & Hval).
  exists evs0, rv. repeat split; [done..|].
  intros Hpos buf' [= <-]. apply Hval; [done|].
  pose proof (slice_len_le buf (bufp s) n ltac:(lia)). lia.
Qed.

Lemma disconnect_ends_stream_witness :
  let e := Event "http.disconnect" None None in
  let s := (read 0 2 (init [data "abc" true; data "de" true; e; data "zz" false])).2 in
  (read 0 9 s).1 = Ok (lit "cde") ∧
  receiver (read 0 9 s).2 = [data "zz" false] ∧
  exhausted (read 0 9 s).2 = true ∧ ended (read 0 9 s).2 = true.
Proof.
  intros e s.
  destruct (disconnect_ends_stream 0 9 s [data "de" true; e] e)
    as (evs0 & rv & Hevs & Hout & Hx & Hen & Hval).
  - lia.
  - vm_compute. reflexivity.
  - right. by left.
  - reflexivity.
  - assert (evs0 = [data "de" true]) as ->.
    { symmetry in Hevs.
      by apply (app_inj_tail evs0 [data "de" true] e e) in Hevs as [-> _]. }
    rewrite Hout, (Hval ltac:(lia) (lit "abc") eq_refl).
    split; [vm_compute; reflexivity|]. split; [vm_compute; reflexivity|]. done.
Defined.

Lemma recv_loop_minimal fuel n rv s :
  0 < n → len rv < n →
  ∃ evs, receiver s = evs ++ receiver (recv_loop fuel n rv s).2 ∧
         ∀ evs0 e, evs = evs0 ++ [e] → len rv + len (evs0 ≫= body_of) < n.
Proof.
  intros Hn. revert rv s. induction fuel as [|fuel IH]; intros rv s Hrv; simpl.
  { exists []. split; [done|]. intros evs0 e H. by destruct evs0. }
  pose proof (_read_step s) as Hstep.
  destruct (_read s) as [o s1]; simpl in Hstep.
  assert (∀ evs0 (e : event), [] = evs0 ++ [e] → len rv + len (evs0 ≫= body_of) < n)
    as Hnil by (intros evs0 e H; by destruct evs0).
  inversion Hstep as [He | He Hr | e rest He Hr]; subst; simpl;
    [by exists [] | by exists [] |].
  assert (∀ evs0 (e' : event), [e] = evs0 ++ [e'] →
                               len rv + len (evs0 ≫= body_of) < n) as Hone.
  { intros evs0 e' H. destruct evs0 as [|x [|y evs0]]; try done.
    simpl. unfold len at 2. simpl. lia. }
  destruct (yield_of e) as [buf|] eqn:Hy; [|by exists [e]].
  destruct (len buf =? 0) eqn:Hlen; [by exists [e]|].
  apply Z.eqb_neq in Hlen.
  destruct (len (rv ++ slice buf 0 (n - len rv)) =? n) eqn:Hfull; [by exists [e]|].
  apply Z.eqb_neq in Hfull.
  assert (body_of e = buf) as Hbody.
  { apply yield_of_body; [done|]. intros ->. by apply Hlen. }
  rewrite slice_prefix in Hfull |- * by lia.
  assert (take (Z.to_nat (n - len rv)) buf = buf) as Htake.
  { apply take_ge. rewrite len_app in Hfull.
    unfold len in *. rewrite length_take in Hfull. lia. }
  rewrite Htake in Hfull |- *. rewrite len_app in Hfull.
  pose proof (slice_len_le buf 0 (n - len rv) ltac:(lia)) as Hs.
  rewrite Z.add_0_l, slice_prefix, Htake in Hs by lia.
  match goal with
  | |- context [recv_loop fuel n ?rv' ?s1] =>
      destruct (IH rv' s1) as (evs' & Hrecv & Hmin)
  end.
  { rewrite len_app. lia. }
  exists (e :: evs'). split; [rewrite Hr; simpl; f_equal; exact Hrecv|].
  intros evs0 e' H. destruct evs0 as [|x evs0].
  - unfold len at 2. simpl. lia.
  - simpl in H. injection H as <- H.
    specialize (Hmin evs0 e' H). rewrite len_app in Hmin.
    change ((e :: evs0) ≫= body_of) with (body_of e ++ (evs0 ≫= body_of)).
    rewrite len_app, Hbody. lia.
Qed.

(** X7: a read of [n > 0] bytes takes from the receiver no more messages
    than it needs: the bytes it found in the buffer and the bodies of all
    the messages it took but the last are fewer than [n] bytes. *)
Theorem receives_only_what_it_needs (fuel : nat) (n : Z) (s : stream) (buf : bytes) :
  0 < n →
  buffer s = Some buf →
  ∃ evs, receiver s = evs ++ receiver (read fuel n s).2 ∧
         ∀ evs0 e, evs = evs0 ++ [e] →
                   len (slice buf (bufp s) (bufp s + n))
                   + len (evs0 ≫= body_of) < n.
Proof.
  intros Hn Hb. unfold read. replace (n =? -1) with false by lia.
  unfold read_bounded. rewrite Hb.
  pose proof (slice_len_le buf (bufp s) n ltac:(lia)) as Hs.
  destruct ((n =? 0) || exhausted s);
    [exists []; split; [done|]; intros evs0 e H; by destruct evs0|].
  destruct (len (slice buf (bufp s) (bufp s + n)) =? n) eqn:E;
    [exists []; split; [done|]; intros evs0 e H; by destruct evs0|].
  apply Z.eqb_neq in E. apply recv_loop_minimal; [done | lia].
Qed.

Lemma receives_only_what_it_needs_witness :
  let s := init [data "ab" true; data "cdef" true; data "gh" false] in
  receiver (read 0 3 s).2 = [data "gh" false] ∧
  ∃ evs, receiver s = evs ++ receiver (read 0 3 s).2 ∧
         ∀ evs0 e, evs = evs0 ++ [e] → len (evs0 ≫= body_of) < 3.
Proof.
  intros s. split; [vm_compute; reflexivity|].
  destruct (receives_only_what_it_needs 0 3 s [] ltac:(lia) eq_refl)
    as (evs & Hrecv & Hmin).
  exists evs. split; [exact Hrecv|]. intros evs0 e H. exact (Hmin evs0 e H).
Defined.

Lemma reads_consecutive fuel ns s :
  Forall (λ n, 0 < n) ns → good s →
  ∃ rvs s', reads fuel ns s = (Ok <$> rvs, s') ∧ good s' ∧
            concat rvs = take (Z.to_nat (foldr Z.add 0 ns)) (unread s) ∧
            unread s' = drop (Z.to_nat (foldr Z.add 0 ns)) (unread s).
Proof.
  intros Hns. revert s. induction Hns as [|n ns Hn Hns IH]; intros s Hgood.
  { exists [], s. simpl. by rewrite take_0, drop_0. }
  destruct (read_bounded_spec n s Hn Hgood) as (s1 & Hread & Hgood1 & Hun1).
  destruct (IH s1 Hgood1) as (rvs & s' & Hreads & Hgood' & Hcat & Hun').
  exists (take (Z.to_nat n) (unread s) :: rvs), s'.
  assert (0 ≤ foldr Z.add 0 ns) as Hsum.
  { clear -Hns. induction Hns; simpl; lia. }
  cbn [reads foldr]. unfold read. replace (n =? -1) with false by lia.
  rewrite Hread, Hreads. split; [done|]. split; [done|].
  rewrite Z2Nat.inj_add by lia.
  split.
  - cbn [concat]. rewrite Hcat, Hun1. apply take_take_drop.
  - rewrite Hun', Hun1. by rewrite drop_drop.
Qed.

(** X8: on a body of data messages (each but the last marked [more_body]
    and not empty), a sequence of reads with positive sizes returns
    consecutive pieces of the body, whatever the sizes of the messages: the
    pieces together are the first bytes of the body, as many as were asked
    for, and a read-all after them returns exactly the bytes that
    follow. *)
Theorem reads_return_consecutive_pieces (fuel fuel' : nat) (ns : list Z)
    (evs : list event) :
  body_stream evs →
  Forall (λ n, 0 < n) ns →
  (length (evs ≫= body_of) < fuel')%nat →
  let total := Z.to_nat (foldr Z.add 0 ns) in
  ∃ rvs s' s'',
    reads fuel ns (init evs) = (Ok <$> rvs, s') ∧
    concat rvs = take total (evs ≫= body_of) ∧
    read fuel' (-1) s' = (Ok (drop total (evs ≫= body_of)), s'').
Proof.
  intros Hbody Hns Hfuel total.
  destruct (reads_consecutive fuel ns (init evs) Hns (init_good evs Hbody))
    as (rvs & s' & Hreads & Hgood & Hcat & Hun).
  change (unread (init evs)) with (evs ≫= body_of) in Hcat, Hun.
  destruct (readall_loop_spec fuel' [] s' Hgood) as (s'' & Hall & _).
  { rewrite Hun, length_drop. lia. }
  exists rvs, s', s''. split; [done|]. split; [done|].
  unfold read. simpl. rewrite Hall, Hun. done.
Qed.

Lemma reads_return_consecutive_pieces_witness :
  let evs := [data "ab" true; data "cdefg" true; data "h" false] in
  ∃ rvs s' s'',
    reads 0 [3; 1; 2] (init evs) = (Ok <$> rvs, s') ∧
    concat rvs = lit "abcdef" ∧
    read 9 (-1) s' = (Ok (lit "gh"), s'').
Proof.
  intros evs.
  assert (body_stream evs) as Hbody by (simpl; repeat split; discriminate).
  destruct (reads_return_consecutive_pieces 0 9 [3; 1; 2] evs Hbody)
    as (rvs & s' & s'' & Hreads & Hcat & Hall).
  - repeat constructor.
  - vm_compute. lia.
  - exists rvs, s', s''. split; [exact Hreads|]. split; [exact Hcat | exact Hall].
Defined.

(** * Further properties of the translation of the scope *)

(** X9: no header reaches the ten entries of the scope: whatever the header
    list holds, the method, the paths, the query string, the endpoints and
    the scheme in the map are those of the scope, with its defaults (for a
    scope that translates: a query string, no endpoint key holding
    [None]). *)
Theorem headers_keep_scope_entries (sc : scope) (q : bytes) :
  query_string sc = Some q →
  endpoints_ok sc →
  ∃ environ, asgi_scope_to_environ sc = Ok environ ∧
    environ !! str "REQUEST_METHOD" = Some (VStr (method sc)) ∧
    environ !! str "SCRIPT_NAME" = Some (VStr (default [] (root_path sc))) ∧
    environ !! str "PATH_INFO" = Some (VStr (default [] (root_path sc) ++ path sc)) ∧
    environ !! str "QUERY_STRING" = Some (VStr (decode q)) ∧
    environ !! str "SERVER_NAME" = Some (endpoint_or_null (server sc)).1 ∧
    environ !! str "SERVER_PORT" = Some (endpoint_or_null (server sc)).2 ∧
    environ !! str "REMOTE_HOST" = Some (endpoint_or_null (client sc)).1 ∧
    environ !! str "REMOTE_ADDR" = Some (endpoint_or_null (client sc)).1 ∧
    environ !! str "REMOTE_PORT" = Some (endpoint_or_null (client sc)).2 ∧
    environ !! str "wsgi.url_scheme" = Some (VStr (default (str "http") (scheme sc))).
Proof.
  intros Hq Hok.
  destruct (asgi_scope_to_environ_spec sc q Hq Hok) as (environ & Henv & _).
  exists environ. split; [done|].
  assert (∀ key v, In key base_keys →
                   scope_environ sc (decode q) !! key = Some v →
                   environ !! key = Some v) as Hget.
  { intros key v Hkey Hv. rewrite (environ_base_key sc q); [done..|].
    by apply list_elem_of_In. }
  destruct (base_environ_lookup sc (decode q))
    as (H1 & H2 & H3 & H4 & H5 & H6 & H7 & H8 & H9 & H10).
  repeat split; (apply Hget; [simpl; tauto | done]).
Qed.

Lemma headers_keep_scope_entries_witness :
  let sc := Scope (str "GET") (str "/x") (Some (str "/app")) (Some (lit "a=1"))
              (Some (Some (VStr (str "h"), VInt 80))) None None
              (Some [(lit "request-method", lit "POST"); (lit "query_string", lit "b=2")]) in
  ∃ environ, asgi_scope_to_environ sc = Ok environ ∧
    environ !! str "REQUEST_METHOD" = Some (VStr (str "GET")) ∧
    environ !! str "PATH_INFO" = Some (VStr (str "/app/x")) ∧
    environ !! str "QUERY_STRING" = Some (VStr (str "a=1")) ∧
    environ !! str "SERVER_PORT" = Some (VInt 80).
Proof.
  intros sc.
  destruct (headers_keep_scope_entries sc (lit "a=1") eq_refl
              ltac:(split; discriminate))
    as (environ & Henv & H1 & _ & H3 & H4 & _ & H6 & _).
  exists environ. split; [exact Henv|]. split; [exact H1|].
  split; [exact H3|]. split; [exact H4 | exact H6].
Defined.

Lemma upper_ascii_upper b :
  upper_char (Byte.to_N (ascii_upper b)) = upper_char (Byte.to_N b).
Proof. destruct b; reflexivity. Qed.

Lemma upper_dash_to_underscore b :
  (if (Byte.to_N (dash_to_underscore b) =? 45)%N then 95%N
   else Byte.to_N (dash_to_underscore b))
  = (if (Byte.to_N b =? 45)%N then 95%N else Byte.to_N b).
Proof. destruct b; reflexivity. Qed.

Lemma ascii_upper_not_dash b :
  (Byte.to_N (ascii_upper b) =? 45)%N = (Byte.to_N b =? 45)%N.
Proof. destruct b; reflexivity. Qed.

Lemma name_ascii_upper (k : bytes) :
  upper (replace_dash (decode (ascii_upper <$> k)))
  = upper (replace_dash (decode k)).
Proof.
  unfold upper, replace_dash, decode. induction k as [|b k IH]; [done|].
  cbn [fmap list_fmap mbind list_bind] in *. rewrite IH. f_equal.
  rewrite ascii_upper_not_dash.
  destruct (Byte.to_N b =? 45)%N; [done|]. apply upper_ascii_upper.
Qed.

Lemma name_dash_to_underscore (k : bytes) :
  upper (replace_dash (decode (dash_to_underscore <$> k)))
  = upper (replace_dash (decode k)).
Proof.
  unfold upper, replace_dash, decode. induction k as [|b k IH]; [done|].
  cbn [fmap list_fmap mbind list_bind] in *. rewrite IH. f_equal.
  by rewrite upper_dash_to_underscore.
Qed.

(** X10: the key of a header does not depend on the case of the ASCII
    letters of its name, nor on whether its words are joined by dashes or
    by underscores: names that differ only so share one entry. *)
Theorem key_ignores_case_and_dashes (k : bytes) :
  wsgi_key_of (ascii_upper <$> k) = wsgi_key_of k ∧
  wsgi_key_of (dash_to_underscore <$> k) = wsgi_key_of k.
Proof.
  unfold wsgi_key_of. by rewrite name_ascii_upper, name_dash_to_underscore.
Qed.

Lemma upper_char_normal b :
  Forall (λ c, negb (c =? 45)%N && negb ((97 <=? c)%N && (c <=? 122)%N) = true)
         (upper_char (if (Byte.to_N b =? 45)%N then 95%N else Byte.to_N b)).
Proof. destruct b; vm_compute; repeat constructor. Qed.

Lemma normal_char (c : N) :
  negb (c =? 45)%N && negb ((97 <=? c)%N && (c <=? 122)%N) = true →
  c ≠ 45%N ∧ ¬ (97 ≤ c ≤ 122)%N.
Proof.
  intros H. apply andb_true_iff in H as [H1 H2].
  apply negb_true_iff in H1, H2. apply N.eqb_neq in H1.
  split; [done|]. intros [Hlo Hhi].
  apply andb_false_iff in H2 as [H2|H2]; apply N.leb_gt in H2; lia.
Qed.

(** X11: a key made from a header holds no dash and no ASCII small letter,
    and it is CONTENT_TYPE, CONTENT_LENGTH or starts with HTTP_. *)
Theorem key_normal_form (k : bytes) :
  (∀ c, c ∈ wsgi_key_of k → c ≠ 45%N ∧ ¬ (97 ≤ c ≤ 122)%N) ∧
  (wsgi_key_of k = str "CONTENT_TYPE" ∨ wsgi_key_of k = str "CONTENT_LENGTH" ∨
   ∃ name, wsgi_key_of k = str "HTTP_" ++ name).
Proof.
  assert (Forall (λ c, negb (c =? 45)%N && negb ((97 <=? c)%N && (c <=? 122)%N) = true)
                 (upper (replace_dash (decode k)))) as Hname.
  { unfold upper, replace_dash, decode. induction k as [|b k IH]; [constructor|].
    cbn [fmap list_fmap mbind list_bind]. apply Forall_app. split; [|exact IH].
    apply upper_char_normal. }
  unfold wsgi_key_of. case_bool_decide as Hbare; split.
  - intros c Hc. rewrite Forall_forall in Hname. by apply normal_char, Hname.
  - apply elem_of_cons in Hbare as [->|Hbare]; [by left|].
    apply list_elem_of_singleton in Hbare as ->. right. by left.
  - intros c Hc. apply elem_of_app in Hc as [Hc|Hc].
    + apply list_elem_of_In in Hc. vm_compute in Hc.
      repeat (destruct Hc as [<-|Hc]; [lia|]). done.
    + rewrite Forall_forall in Hname. by apply normal_char, Hname.
  - right. right. by eexists.
Qed.

(** * Further properties of the response *)

Section ResponseFrames.

Variable encode : pystr → pystr → outcome bytes.
Variable get_wsgi_headers : ASGIResponse → gmap pystr value → list (pystr * pystr).

Lemma get_app_iter_with_body debug self environ request_method :
  environ !! str "REQUEST_METHOD" = Some (VStr request_method) →
  has_body request_method (status_code self) →
  get_app_iter encode debug self environ
  = if direct_passthrough self then
      (if debug then _warn_if_string (response self) else Ok tt) ≫= λ _,
      Ok (Raw (response self))
    else
      Ok (Generator (aiter_encoded encode self
                       (if negb (is_async (response self))
                        then _asyncify (response self) else response self))).
Proof.
  intros Hm (Hhead & Hinfo & H204 & H304). unfold get_app_iter. rewrite Hm.
  rewrite bool_decide_eq_false_2 by (intros [= ?]; done).
  replace ((100 <=? status_code self) && (status_code self <? 200)) with false by lia.
  rewrite bool_decide_eq_false_2; [done|].
  intros Hin. apply list_elem_of_In in Hin. simpl in Hin.
  destruct Hin as [?|[?|[]]]; lia.
Qed.

Lemma aiter_encoded_asyncify self src :
  aiter_encoded encode self (if negb (is_async src) then _asyncify src else src)
  = aiter_encoded encode self src.
Proof. by destruct (is_async src). Qed.

Lemma aiter_encoded_app self its1 its2 a1 l1 a2 l2 a3 l3 :
  aiter_encoded encode self (Source (its1 ++ its2) a1 l1)
  = aiter_encoded encode self (Source its1 a2 l2)
    ++ aiter_encoded encode self (Source its2 a3 l3).
Proof. unfold aiter_encoded. cbn [items]. apply fmap_app. Qed.

Lemma aiter_encoded_ok self its bs a l :
  Forall2 (encodes_to encode (charset self)) its bs →
  aiter_encoded encode self (Source its a l) = Ok <$> (Bytes <$> bs).
Proof.
  unfold aiter_encoded. cbn [items].
  induction 1 as [|it b its bs Hit _ IH]; [done|].
  cbn [fmap list_fmap] in *. rewrite IH. f_equal.
  destruct it as [t|b']; simpl in Hit; [by rewrite Hit | by subst].
Qed.

Lemma send_body_app i its steps :
  send_body None i ((Ok <$> its) ++ steps)
  = (tagged its ++ (send_body None (i + len its) steps).1,
     (send_body None (i + len its) steps).2).
Proof.
  revert i. induction its as [|it its IH]; intros i.
  - cbn [fmap list_fmap app tagged]. unfold len. simpl. rewrite Z.add_0_r.
    by destruct (send_body None i steps).
  - cbn [fmap list_fmap app send_body]. rewrite IH.
    replace (i + 1 + len its) with (i + len (it :: its))
      by (unfold len; cbn [length]; lia).
    done.
Qed.

Lemma send_body_fail i its e steps :
  send_body None i ((Ok <$> its) ++ Raise e :: steps) = (tagged its, Raise e).
Proof. rewrite send_body_app. simpl. by rewrite app_nil_r. Qed.

Lemma send_body_None_shape i steps :
  ∃ data, (send_body None i steps).1 = tagged data.
Proof.
  revert i. induction steps as [|st steps IH]; intros i; [by exists []|].
  destruct st as [it| | |]; simpl; try by exists [].
  destruct (IH (i + 1)) as [data Hdata].
  destruct (send_body None (i + 1) steps) as [sent o]. simpl in Hdata. subst sent.
  by exists (it :: data).
Qed.

Lemma response_coro_shape self it hdrs :
  ∃ data tail,
    (response_coro self it hdrs).1
    = StartFrame (status_code self) hdrs :: tagged data ++ tail ∧
    (tail = [] ∨
     tail = [BodyFrame None false] ∧ (response_coro self it hdrs).2 = Ok tt).
Proof.
  unfold response_coro. destruct it as [g|src]; cbn [try_len aiter].
  - destruct (send_body_None_shape 0 g) as [data Hdata].
    destruct (send_body None 0 g) as [sent o]. simpl in Hdata. subst sent.
    destruct o as [[]| | |]; simpl.
    + exists data, [BodyFrame None false]. split; [done | by right].
    + exists data, []. rewrite app_nil_r. split; [done | by left].
    + exists data, []. rewrite app_nil_r. split; [done | by left].
    + exists data, []. rewrite app_nil_r. split; [done | by left].
  - destruct (is_async src).
    + destruct (has_len src).
      * rewrite send_body_all_tagged by (rewrite Z.add_0_l; done). simpl.
        exists (items src), []. split; [done | by left].
      * rewrite send_body_all_tagged by done. simpl.
        exists (items src), [BodyFrame None false]. split; [done | by right].
    + destruct (has_len src); simpl; exists [], []; (split; [done | by left]).
Qed.

(** X12: whenever [__call__] gets to send, the frames are the start frame
    with the status of the response, then body frames that each carry a
    chunk and are all marked [more_body], then at most one frame without
    body and without [more_body]; that frame is sent only when the loop
    over the chunks ended without exception. *)
Theorem frames_shape (debug : bool) (self : ASGIResponse) (sc : scope)
    (frames : list frame) (o : outcome unit) :
  __call__ encode get_wsgi_headers debug self sc = Ok (frames, o) →
  ∃ environ data tail,
    asgi_scope_to_environ sc = Ok environ ∧
    frames = StartFrame (status_code self) (get_wsgi_headers self environ)
               :: tagged data ++ tail ∧
    (tail = [] ∨ tail = [BodyFrame None false] ∧ o = Ok tt).
Proof.
  intros Hcall.
  destruct (asgi_scope_to_environ sc) as [environ| | |] eqn:Henv;
    try (unfold __call__ in Hcall; rewrite Henv in Hcall; done).
  rewrite (call_with_environ _ _ _ _ _ environ) in Hcall by done.
  destruct (get_app_iter encode debug self environ) as [it| | |]; try done.
  simpl in Hcall. injection Hcall as Hcall.
  destruct (response_coro_shape self it (get_wsgi_headers self environ))
    as (data & tail & Hfr & Htail).
  rewrite Hcall in Hfr, Htail. simpl in Hfr, Htail.
  by exists environ, data, tail.
Qed.

(** X13: for a request that has a body, on a scope that translates, and a
    response that is not marked
    direct passthrough, when every text chunk can be encoded with the
    charset, the frames are the start frame, one frame for each chunk in
    order (text encoded, bytes as they are), all marked [more_body], and
    the frame without body; whether the body is a list, a generator or
    async makes no difference. *)
Theorem encoded_body_frames (debug : bool) (self : ASGIResponse) (sc : scope)
    (q : bytes) (bs : list bytes) :
  query_string sc = Some q →
  endpoints_ok sc →
  has_body (method sc) (status_code self) →
  direct_passthrough self = false →
  Forall2 (encodes_to encode (charset self)) (items (response self)) bs →
  ∃ environ, asgi_scope_to_environ sc = Ok environ ∧
    __call__ encode get_wsgi_headers debug self sc
    = Ok (StartFrame (status_code self) (get_wsgi_headers self environ)
            :: tagged (Bytes <$> bs) ++ [BodyFrame None false], Ok tt).
Proof.
  intros Hq Hok Hbody Hpass Henc.
  destruct (asgi_scope_to_environ_spec sc q Hq Hok) as (environ & Henv & _).
  exists environ. split; [done|].
  rewrite (call_with_environ _ _ _ _ _ environ) by done.
  rewrite (get_app_iter_with_body _ _ _ (method sc))
    by (done || by apply (environ_request_method sc q)).
  rewrite Hpass, aiter_encoded_asyncify.
  destruct (response self) as [its a l]. cbn [items] in Henc.
  rewrite (aiter_encoded_ok _ _ bs) by done.
  cbn [mbind outcome_bind]. unfold response_coro, try_len, aiter.
  by rewrite send_body_all_tagged.
Qed.

(** X14: when a text chunk cannot be encoded (request with a body, scope
    that translates, no passthrough), the chunks before it have
    been sent, the exception of the codec leaves the coroutine, and no
    frame ends the body. *)
Theorem encoding_failure_cuts_body (debug : bool) (self : ASGIResponse)
    (sc : scope) (q : bytes) (pre post : list item) (t : pystr)
    (bs : list bytes) (e : exn) :
  query_string sc = Some q →
  endpoints_ok sc →
  has_body (method sc) (status_code self) →
  direct_passthrough self = false →
  items (response self) = pre ++ Text t :: post →
  Forall2 (encodes_to encode (charset self)) pre bs →
  encode (charset self) t = Raise e →
  ∃ environ, asgi_scope_to_environ sc = Ok environ ∧
    __call__ encode get_wsgi_headers debug self sc
    = Ok (StartFrame (status_code self) (get_wsgi_headers self environ)
            :: tagged (Bytes <$> bs), Raise e).
Proof.
  intros Hq Hok Hbody Hpass Hits Henc Hfail.
  destruct (asgi_scope_to_environ_spec sc q Hq Hok) as (environ & Henv & _).
  exists environ. split; [done|].
  rewrite (call_with_environ _ _ _ _ _ environ) by done.
  rewrite (get_app_iter_with_body _ _ _ (method sc))
    by (done || by apply (environ_request_method sc q)).
  rewrite Hpass, aiter_encoded_asyncify.
  destruct (response self) as [its a l]. cbn [items] in Hits. subst its.
  assert (aiter_encoded encode self (Source (pre ++ Text t :: post) a l)
          = (Ok <$> (Bytes <$> bs))
            ++ Raise e :: aiter_encoded encode self (Source post a l)) as ->.
  { rewrite (aiter_encoded_app _ pre (Text t :: post) a l a l a l).
    rewrite (aiter_encoded_ok _ pre bs) by done. f_equal.
    unfold aiter_encoded. cbn [items fmap list_fmap]. by rewrite Hfail. }
  cbn [mbind outcome_bind]. unfold response_coro, try_len, aiter.
  by rewrite send_body_fail.
Qed.

End ResponseFrames.

Lemma frames_shape_witness :
  let encode := λ (_ t : pystr),
    match mapM Byte.of_N t with Some b => Ok b | None => Raise UnicodeError end in
  let hdrs := λ (_ : ASGIResponse) (_ : gmap pystr value), [] in
  let self := Response (Source [Text (str "ab"); Bytes (lit "cd")] false false)
                200 false (str "latin-1") in
  ∃ frames o data tail,
    __call__ encode hdrs true self get_scope = Ok (frames, o) ∧
    frames = StartFrame 200 [] :: tagged data ++ tail ∧
    (tail = [] ∨ tail = [BodyFrame None false] ∧ o = Ok tt).
Proof.
  intros encode hdrs self.
  assert (__call__ encode hdrs true self get_scope
          = Ok ([StartFrame 200 []; BodyFrame (Some (Bytes (lit "ab"))) true;
                 BodyFrame (Some (Bytes (lit "cd"))) true; BodyFrame None false],
                Ok tt)) as Hcall by (vm_compute; reflexivity).
  destruct (frames_shape encode hdrs true self get_scope _ _ Hcall)
    as (environ & data & tail & _ & Hfr & Htail).
  eexists _, _, data, tail. split; [exact Hcall|]. split; [exact Hfr | exact Htail].
Defined.

Lemma encoded_body_frames_witness :
  let encode := λ (_ t : pystr),
    match mapM Byte.of_N t with Some b => Ok b | None => Raise UnicodeError end in
  let hdrs := λ (_ : ASGIResponse) (_ : gmap pystr value), [] in
  let self := Response (Source [Text (str "ab"); Bytes (lit "cd")] true true)
                200 false (str "latin-1") in
  __call__ encode hdrs false self get_scope
  = Ok ([StartFrame 200 []; BodyFrame (Some (Bytes (lit "ab"))) true;
         BodyFrame (Some (Bytes (lit "cd"))) true; BodyFrame None false], Ok tt).
Proof.
  intros encode hdrs self.
  destruct (encoded_body_frames encode hdrs false self get_scope []
              [lit "ab"; lit "cd"]) as (environ & _ & Hcall).
  - reflexivity.
  - exact get_scope_ok.
  - split; [vm_compute; discriminate | simpl; lia].
  - reflexivity.
  - repeat constructor.
  - exact Hcall.
Defined.

Lemma encoding_failure_cuts_body_witness :
  let encode := λ (_ t : pystr),
    match mapM Byte.of_N t with Some b => Ok b | None => Raise UnicodeError end in
  let hdrs := λ (_ : ASGIResponse) (_ : gmap pystr value), [] in
  let self := Response (Source [Bytes (lit "ab"); Text [924%N]; Bytes (lit "cd")]
                          false true) 200 false (str "latin-1") in
  __call__ encode hdrs true self get_scope
  = Ok ([StartFrame 200 []; BodyFrame (Some (Bytes (lit "ab"))) true],
        Raise UnicodeError).
Proof.
  intros encode hdrs self.
  destruct (encoding_failure_cuts_body encode hdrs true self get_scope []
              [Bytes (lit "ab")] [Bytes (lit "cd")] [924%N] [lit "ab"] UnicodeError)
    as (environ & _ & Hcall).
  - reflexivity.
  - exact get_scope_ok.
  - split; [vm_compute; discriminate | simpl; lia].
  - reflexivity.
  - reflexivity.
  - repeat constructor.
  - reflexivity.
  - exact Hcall.
Defined.

Section Passthrough.

Variable encode : pystr → pystr → outcome bytes.
Variable get_wsgi_headers : ASGIResponse → gmap pystr value → list (pystr * pystr).

(** X15: with [__debug__] off, on a scope that translates, a response
    marked direct passthrough whose body is async is sent chunk by chunk as it is, text chunks too, with no
    call of the codec; every frame is marked [more_body], and the frame
    without body follows exactly when the body has no length. *)
Theorem passthrough_forwards_chunks (self : ASGIResponse) (sc : scope) (q : bytes) :
  query_string sc = Some q →
  endpoints_ok sc →
  has_body (method sc) (status_code self) →
  direct_passthrough self = true →
  is_async (response self) = true →
  ∃ environ, asgi_scope_to_environ sc = Ok environ ∧
    __call__ encode get_wsgi_headers false self sc
    = Ok (StartFrame (status_code self) (get_wsgi_headers self environ)
            :: tagged (items (response self))
            ++ (if has_len (response self) then [] else [BodyFrame None false]),
          Ok tt).
Proof.
  intros Hq Hok Hbody Hpass Hasync.
  destruct (asgi_scope_to_environ_spec sc q Hq Hok) as (environ & Henv & _).
  exists environ. split; [done|].
  rewrite (call_with_environ _ _ _ _ _ environ) by done.
  rewrite (get_app_iter_with_body _ _ _ _ (method sc))
    by (done || by apply (environ_request_method sc q)).
  rewrite Hpass. cbn [mbind outcome_bind].
  unfold response_coro, try_len, aiter. rewrite Hasync.
  destruct (has_len (response self)).
  - by rewrite send_body_all_tagged by (rewrite Z.add_0_l; done).
  - by rewrite send_body_all_tagged.
Qed.

End Passthrough.

Lemma passthrough_forwards_chunks_witness :
  let encode := λ (_ _ : pystr), Raise UnicodeError in
  let hdrs := λ (_ : ASGIResponse) (_ : gmap pystr value), [] in
  let self := Response (Source [Text [924%N]; Bytes (lit "cd")] true false)
                200 true (str "latin-1") in
  __call__ encode hdrs false self get_scope
  = Ok ([StartFrame 200 []; BodyFrame (Some (Text [924%N])) true;
         BodyFrame (Some (Bytes (lit "cd"))) true; BodyFrame None false], Ok tt).
Proof.
  intros encode hdrs self.
  destruct (passthrough_forwards_chunks encode hdrs self get_scope [])
    as (environ & _ & Hcall).
  - reflexivity.
  - exact get_scope_ok.
  - split; [vm_compute; discriminate | simpl; lia].
  - reflexivity.
  - reflexivity.
  - exact Hcall.
Defined.
